(** * The inline markup resolver of the Listening plugin

    A shallow embedding of [parseAndRenderLine] / [applyRules] from
    [src/main.ts] (first definition of the class, lines 223-310), and
    theorems about discovery, ordering, selection and emission.

    Strings are JavaScript strings: sequences of UTF-16 code units.  The
    DOM sink is modelled by the list of child nodes that one call of
    [applyRules] appends to its parent element. *)

From Stdlib Require Import String Ascii.
From Stdlib Require Import List NArith ZArith Arith Lia Bool.
From Stdlib Require Import Sorted Permutation.
Import ListNotations.
Open Scope nat_scope.

Set Implicit Arguments.

(** ** Strings *)

Definition CodeUnit := N.
Definition JsString := list CodeUnit.

(** An ASCII literal of the source, as a JavaScript string. *)
Definition js (s : string) : JsString :=
  map N_of_ascii (list_ascii_of_string s).

(** [String.prototype.substring(start, end)]: both arguments are clamped
    to the length and swapped when out of order. *)
Definition substring (text : JsString) (s e : nat) : JsString :=
  let s' := Nat.min s (length text) in
  let e' := Nat.min e (length text) in
  let lo := Nat.min s' e' in
  let hi := Nat.max s' e' in
  firstn (hi - lo) (skipn lo text).

(** ** The option monad: [None] is a loop that ran out of its budget *)

Definition bind {A B} (m : option A) (k : A -> option B) : option B :=
  match m with
  | Some a => k a
  | None => None
  end.

Notation "x <- m ;; k" := (bind m (fun x => k))
  (at level 61, m at next level, right associativity).

Fixpoint mapM {A B} (f : A -> option B) (l : list A) : option (list B) :=
  match l with
  | [] => Some []
  | a :: l' => b <- f a ;; bs <- mapM f l' ;; Some (b :: bs)
  end.

(** ** Regular expressions of the rule table

    Every pattern of the table has the shape [D(.*?)D] for a literal
    delimiter [D]: the delimiter, a lazy run of characters other than
    line terminators (the capture group), the delimiter again.  A pattern
    is given by its delimiter; [new RegExp(rule.regex.source, "g")] is the
    same pattern with [lastIndex] 0. *)

Record RegExp := { delimiter : JsString }.

(** The characters that [.] does not match (no [s] flag). *)
Definition isLineTerminator (c : CodeUnit) : bool :=
  (N.eqb c 10 || N.eqb c 13 || N.eqb c 8232 || N.eqb c 8233)%bool.

(** The literal [d] matches at the head of [s]. *)
Fixpoint startsWith (d s : JsString) : bool :=
  match d, s with
  | [], _ => true
  | _ :: _, [] => false
  | x :: d', y :: s' => (N.eqb x y && startsWith d' s')%bool
  end.

(** [(.*?)D] by backtracking: the group is extended by one character at a
    time, and the first extension after which [D] matches wins; a line
    terminator or the end of the text fails the attempt. *)
Fixpoint lazyGroup (d s : JsString) : option JsString :=
  if startsWith d s then Some []
  else match s with
       | [] => None
       | c :: s' =>
           if isLineTerminator c then None
           else option_map (cons c) (lazyGroup d s')
       end.

(** [D(.*?)D] anchored at the head of [s]; the result is the capture. *)
Definition matchHere (d s : JsString) : option JsString :=
  if startsWith d s then lazyGroup d (skipn (length d) s) else None.

(** The result of [RegExp.prototype.exec]: [match.index], [match[0]] and
    [match[1]]. *)
Record RegExpExecArray := {
  index : nat;
  m0 : JsString;
  m1 : JsString
}.

(** Leftmost match in [s], the suffix of the text that starts at offset
    [i]. *)
Fixpoint search (d s : JsString) (i : nat) : option RegExpExecArray :=
  match matchHere d s with
  | Some p =>
      Some {| index := i;
              m0 := firstn (length d + length p + length d) s;
              m1 := p |}
  | None =>
      match s with
      | [] => None
      | _ :: s' => search d s' (S i)
      end
  end.

(** [regex.exec(text)] of a global regular expression whose [lastIndex]
    is [lastIndex]; after a match the new [lastIndex] is the end of the
    match. *)
Definition exec (regex : RegExp) (lastIndex : nat) (text : JsString)
  : option RegExpExecArray :=
  if length text <? lastIndex then None
  else search (delimiter regex) (skipn lastIndex text) lastIndex.

(** ** The rule table *)

Record Rule := {
  regex : RegExp;
  style : option string;
  tag : option string
}.

Definition delimited (d : string) : RegExp := {| delimiter := js d |}.

Definition delRule : Rule :=
  {| regex := delimited "~~"; style := None; tag := Some "del"%string |}.
Definition uRule : Rule :=
  {| regex := delimited "__"; style := None; tag := Some "u"%string |}.
Definition strongRule : Rule :=
  {| regex := delimited "**"; style := None; tag := Some "strong"%string |}.
Definition emRule : Rule :=
  {| regex := delimited "*"; style := None; tag := Some "em"%string |}.
Definition upRule : Rule :=
  {| regex := delimited "++"; style := Some "font-size: 1.5em;"%string;
     tag := None |}.
Definition downRule : Rule :=
  {| regex := delimited "--"; style := Some "font-size: 0.5em;"%string;
     tag := None |}.

Definition rules : list Rule :=
  [delRule; uRule; strongRule; emRule; upRule; downRule].

(** ** Discovery *)

Record Candidate := {
  c_index : nat;
  c_length : nat;
  c_rule : Rule;
  c_match : RegExpExecArray
}.

(** [while ((match = regex.exec(text)) !== null) allMatches.push(...)] *)
Fixpoint execLoop (fuel : nat) (rule : Rule) (text : JsString)
    (lastIndex : nat) : option (list Candidate) :=
  match fuel with
  | 0 => None
  | S fuel' =>
      match exec (regex rule) lastIndex text with
      | None => Some []
      | Some m =>
          rest <- execLoop fuel' rule text (index m + length (m0 m)) ;;
          Some ({| c_index := index m; c_length := length (m0 m);
                   c_rule := rule; c_match := m |} :: rest)
      end
  end.

(** The matches of one rule; the loop advances by at least one character
    per round, so a budget of the text's length plus one is never spent. *)
Definition matchesOf (text : JsString) (rule : Rule)
  : option (list Candidate) :=
  execLoop (S (length text)) rule text 0.

(** [rules.forEach(rule => ...)] over a table [rs]. *)
Fixpoint discover (rs : list Rule) (text : JsString)
  : option (list Candidate) :=
  match rs with
  | [] => Some []
  | rule :: rs' =>
      ms <- matchesOf text rule ;;
      rest <- discover rs' text ;;
      Some (ms ++ rest)
  end.

(** ** Ordering *)

(** [(a, b) => a.index - b.index || b.length - a.length] *)
Definition compareFn (a b : Candidate) : Z :=
  let d := (Z.of_nat (c_index a) - Z.of_nat (c_index b))%Z in
  if (d =? 0)%Z
  then (Z.of_nat (c_length b) - Z.of_nat (c_length a))%Z
  else d.

(** [Array.prototype.sort] is stable: an element moves behind another
    only when the comparison function says it is greater. *)
Fixpoint insert (x : Candidate) (l : list Candidate) : list Candidate :=
  match l with
  | [] => [x]
  | y :: l' =>
      if (0 <? compareFn x y)%Z then y :: insert x l' else x :: l
  end.

Fixpoint sort (l : list Candidate) : list Candidate :=
  match l with
  | [] => []
  | x :: l' => insert x (sort l')
  end.

(** ** Selection and segmentation *)

Record Range := { start : nat; end_ : nat }.

Inductive Part :=
| PString (s : JsString)
| PMatch (text : JsString) (rule : Rule).

Record LoopState := {
  lastIndex : nat;
  parts : list Part;
  processedRanges : list Range
}.

Definition initState : LoopState :=
  {| lastIndex := 0; parts := []; processedRanges := [] |}.

Definition isOverlapping (processedRanges : list Range) (s e : nat) : bool :=
  existsb (fun range => Nat.max s (start range) <? Nat.min e (end_ range))
          processedRanges.

(** One round of [for (const {index, length, rule, match} of allMatches)]. *)
Definition selectStep (text : JsString) (st : LoopState) (c : Candidate)
  : LoopState :=
  let matchStart := c_index c in
  let matchEnd := c_index c + c_length c in
  if isOverlapping (processedRanges st) matchStart matchEnd then st
  else
    {| lastIndex := matchEnd;
       parts :=
         parts st
         ++ (if lastIndex st <? matchStart
             then [PString (substring text (lastIndex st) matchStart)]
             else [])
         ++ [PMatch (m1 (c_match c)) (c_rule c)];
       processedRanges :=
         processedRanges st
         ++ [{| start := matchStart; end_ := matchEnd |}] |}.

Definition select (text : JsString) (allMatches : list Candidate)
  : LoopState :=
  fold_left (selectStep text) allMatches initState.

(** The trailing text: [if (lastIndex < text.length) parts.push(...)]. *)
Definition finish (text : JsString) (st : LoopState) : list Part :=
  parts st
  ++ (if lastIndex st <? length text
      then [PString (substring text (lastIndex st) (length text))]
      else []).

(** Everything [applyRules] does before [parts.forEach]. *)
Definition partsOf (text : JsString) : option (list Part) :=
  allMatches <- discover rules text ;;
  Some (finish text (select text (sort allMatches))).

(** ** Emission *)

#[warnings="-register-all"]
Inductive Node :=
| TextNode (data : JsString)
| Element (tagName : string) (cssText : string) (childNodes : list Node).

(** [rule.tag || "span"] *)
Definition tagOf (rule : Rule) : string :=
  match tag rule with
  | Some t => t
  | None => "span"%string
  end.

(** [span.style.cssText] after [if (rule.style) cssText += rule.style]. *)
Definition cssOf (rule : Rule) : string :=
  match style rule with
  | Some s => s
  | None => EmptyString
  end.

(** [applyRules(text, parentEl)]: the children appended to [parentEl].
    The budget bounds the depth of the recursion. *)
Fixpoint applyRules (fuel : nat) (text : JsString) : option (list Node) :=
  match fuel with
  | 0 => None
  | S fuel' =>
      ps <- partsOf text ;;
      mapM (fun part =>
              match part with
              | PString s => Some (TextNode s)
              | PMatch content rule =>
                  children <- applyRules fuel' content ;;
                  Some (Element (tagOf rule) (cssOf rule) children)
              end) ps
  end.

(** [parseAndRenderLine(parentElement, line)]: every nested call works on
    a shorter text, so the length of the line plus one bounds the depth. *)
Definition resolve (line : JsString) : option (list Node) :=
  applyRules (S (length line)) line.

(** * Specification vocabulary *)

(** What discovery records about a candidate of [text]. *)
Definition matchedAt (text : JsString) (c : Candidate) : Prop :=
  let d := delimiter (regex (c_rule c)) in
  let m := c_match c in
  c_index c = index m /\ c_length c = length (m0 m) /\
  m0 m = d ++ m1 m ++ d /\
  exists pre post,
    text = pre ++ m0 m ++ post /\ length pre = c_index c /\
    matchHere d (m0 m ++ post) = Some (m1 m).

(** The position of a rule in the table, [rules.indexOf(rule)]. *)
Definition Rule_eq_dec (a b : Rule) : {a = b} + {a <> b}.
Proof. repeat decide equality. Defined.

Fixpoint indexOf (r : Rule) (rs : list Rule) : nat :=
  match rs with
  | [] => 0
  | r' :: rs' => if Rule_eq_dec r r' then 0 else S (indexOf r rs')
  end.

Definition rulePos (r : Rule) : nat := indexOf r rules.

(** The order in which [rules.forEach] pushes candidates: rule by rule,
    and the matches of one rule from left to right. *)
Definition pushedBefore (a b : Candidate) : Prop :=
  rulePos (c_rule a) < rulePos (c_rule b) \/
  (c_rule a = c_rule b /\ c_index a < c_index b).

(** The order of the specification: start ascending, then length
    descending, then rule-table position ascending. *)
Definition precedes (a b : Candidate) : Prop :=
  c_index a < c_index b \/
  (c_index a = c_index b /\
   (c_length b < c_length a \/
    (c_length a = c_length b /\ rulePos (c_rule a) < rulePos (c_rule b)))).

(** What a stable sort by [compareFn] guarantees of two elements in the
    order of its output, when [orig] was the order of its input. *)
Definition sortedStable (orig : Candidate -> Candidate -> Prop)
    (a b : Candidate) : Prop :=
  (compareFn a b < 0)%Z \/ (compareFn a b = 0%Z /\ orig a b).


(** Character offsets covered by a range, and ranges that share one. *)
Definition inRange (r : Range) (p : nat) : Prop :=
  start r <= p /\ p < end_ r.

Definition sharePosition (r1 r2 : Range) : Prop :=
  exists p, inRange r1 p /\ inRange r2 p.

(** The interval [[index, index + length)] of a candidate. *)
Definition rangeOf (c : Candidate) : Range :=
  {| start := c_index c; end_ := c_index c + c_length c |}.

(** The characters of the scanned text that a part stands for: a literal
    part stands for itself, a match for its payload between the two
    delimiters of its rule. *)
Definition spanOf (p : Part) : JsString :=
  match p with
  | PString s => s
  | PMatch content rule =>
      delimiter (regex rule) ++ content ++ delimiter (regex rule)
  end.

(** The ranges that the matches among [ps] occupy when the spans of [ps]
    are laid out one after the other from offset [o]. *)
Fixpoint matchRanges (o : nat) (ps : list Part) : list Range :=
  match ps with
  | [] => []
  | p :: ps' =>
      let e := o + length (spanOf p) in
      match p with
      | PString _ => matchRanges e ps'
      | PMatch _ _ => {| start := o; end_ := e |} :: matchRanges e ps'
      end
  end.

(** The delimiter of the rule that creates an element with this tag name
    and this inline style. *)
Definition markerFor (tagName cssText : string) : JsString :=
  match find (fun r => (String.eqb (tagOf r) tagName
                        && String.eqb (cssOf r) cssText)%bool) rules with
  | Some r => delimiter (regex r)
  | None => []
  end.

(** The literal characters below a node, in document order
    ([Node.textContent]). *)
Fixpoint textContent (n : Node) : JsString :=
  match n with
  | TextNode data => data
  | Element _ _ childNodes => concat (map textContent childNodes)
  end.

(** The source text of a node: its literal characters, with the delimiter
    of every element put back on both sides of its content. *)
Fixpoint unparse (n : Node) : JsString :=
  match n with
  | TextNode data => data
  | Element tagName cssText childNodes =>
      markerFor tagName cssText
      ++ concat (map unparse childNodes)
      ++ markerFor tagName cssText
  end.

(** The number of delimiter characters that [unparse] puts back. *)
Fixpoint markerChars (n : Node) : nat :=
  match n with
  | TextNode _ => 0
  | Element tagName cssText childNodes =>
      2 * length (markerFor tagName cssText)
      + list_sum (map markerChars childNodes)
  end.

(** The parts emitted so far are exactly the scanned text up to
    [lastIndex], and their matches sit on the accepted ranges. *)
Definition covered (text : JsString) (st : LoopState) : Prop :=
  lastIndex st <= length text /\
  concat (map spanOf (parts st)) = firstn (lastIndex st) text /\
  matchRanges 0 (parts st) = processedRanges st.

(** A match part of [text] carries a rule of the table, and its payload
    and both delimiters fit in [text]. *)
Definition partFits (text : JsString) (p : Part) : Prop :=
  match p with
  | PString _ => True
  | PMatch content rule =>
      In rule rules /\
      2 * length (delimiter (regex rule)) + length content <= length text
  end.

(** * The code-block processor and the font helpers

    The remaining pure parts of [src/main.ts]: the loop over the lines of
    a block (lines 104-108), the family name of a loaded font (lines
    134-138 and 164-170) and the file name of a scanned path (lines
    382-384). *)

(** [s.split(sep)] for a separator of one character. *)
Fixpoint split (sep : CodeUnit) (s : JsString) : list JsString :=
  match s with
  | [] => [[]]
  | c :: s' =>
      if N.eqb c sep then [] :: split sep s'
      else match split sep s' with
           | l :: ls => (c :: l) :: ls
           | [] => [[c]]
           end
  end.

(** [lines.join(sep)], the inverse the theorems compare with. *)
Fixpoint join (sep : CodeUnit) (ls : list JsString) : JsString :=
  match ls with
  | [] => []
  | [l] => l
  | l :: ls' => l ++ sep :: join sep ls'
  end.

Definition LF : CodeUnit := 10%N.

(** The body of the processor after the styling of [el]:
    [for (const line of source.split("\n"))] creates one [p] and renders
    the line into it.  The result is the children of [el]. *)
Definition renderBlock (source : JsString) : option (list Node) :=
  mapM (fun line =>
          children <- resolve line ;;
          Some (Element "p" "" children))
       (split LF source).

(** [s.lastIndexOf(c)] for a search string of one character: the offset
    of its last occurrence, or -1. *)
Fixpoint lastIndexFrom (c : CodeUnit) (s : JsString) (i : nat) (found : Z)
  : Z :=
  match s with
  | [] => found
  | x :: s' =>
      lastIndexFrom c s' (S i) (if N.eqb x c then Z.of_nat i else found)
  end.

Definition lastIndexOf (c : CodeUnit) (s : JsString) : Z :=
  lastIndexFrom c s 0 (-1).

(** [substring] with numeric arguments: a negative argument counts as 0. *)
Definition substringZ (text : JsString) (s e : Z) : JsString :=
  substring text (Z.to_nat s) (Z.to_nat e).

Definition DOT : CodeUnit := 46%N.
Definition SLASH : CodeUnit := 47%N.




(** [fontFileName.substring(0, fontFileName.lastIndexOf("."))] *)
Definition rawFontName (fontFileName : JsString) : JsString :=
  substringZ fontFileName 0 (lastIndexOf DOT fontFileName).

(** [fontFileName.split(".").pop()], before [toLowerCase]. *)
Definition extensionOf (fontFileName : JsString) : JsString :=
  last (split DOT fontFileName) [].


(** [filePath.substring(filePath.lastIndexOf("/") + 1)] of
    [scanFontFiles]; with one argument [substring] runs to the end. *)
Definition fileNameOf (filePath : JsString) : JsString :=
  substringZ filePath (lastIndexOf SLASH filePath + 1)
             (Z.of_nat (length filePath)).

(** * Vocabulary of the further properties *)

(** [d] occurs in [s] as a substring. *)
Definition occursIn (d s : JsString) : Prop :=
  exists pre post, s = pre ++ d ++ post.

(** The characters that open a delimiter of the table. *)
Definition markerCharacters : JsString := js "~_*+-".

Definition isLiteral (p : Part) : bool :=
  match p with
  | PString _ => true
  | PMatch _ _ => false
  end.

Definition isText (n : Node) : bool :=
  match n with
  | TextNode _ => true
  | Element _ _ _ => false
  end.

(** Two neighbours of [l] both satisfy [f]. *)
Fixpoint adjacent {A} (f : A -> bool) (l : list A) : bool :=
  match l with
  | [] => false
  | a :: l' =>
      (f a && match l' with
              | b :: _ => f b
              | [] => false
              end)
      || adjacent f l'
  end.

Definition lastIs {A} (f : A -> bool) (l : list A) : bool :=
  match rev l with
  | x :: _ => f x
  | [] => false
  end.

Definition headIs {A} (f : A -> bool) (l : list A) : bool :=
  match l with
  | x :: _ => f x
  | [] => false
  end.

Definition nonEmpty (s : JsString) : bool :=
  match s with
  | [] => false
  | _ :: _ => true
  end.

(** No text node below [n] is empty, and no two text nodes are
    neighbours. *)
Fixpoint normalized (n : Node) : bool :=
  match n with
  | TextNode data => nonEmpty data
  | Element _ _ childNodes =>
      negb (adjacent isText childNodes) && forallb normalized childNodes
  end.

(** The number of elements on the longest path below a node. *)
Fixpoint depth (n : Node) : nat :=
  match n with
  | TextNode _ => 0
  | Element _ _ childNodes => S (list_max (map depth childNodes))
  end.

(** An element with this tag name and style occurs in [n]. *)
Fixpoint hasElement (tagName cssText : string) (n : Node) : bool :=
  match n with
  | TextNode _ => false
  | Element t c childNodes =>
      (String.eqb t tagName && String.eqb c cssText)
      || existsb (hasElement tagName cssText) childNodes
  end.

(** Some element of [n] has a descendant with its own tag name and
    style. *)
Fixpoint selfNested (n : Node) : bool :=
  match n with
  | TextNode _ => false
  | Element t c childNodes =>
      existsb (hasElement t c) childNodes || existsb selfNested childNodes
  end.

(** Two candidates of which the first ends before the second starts. *)
Definition endsBefore (a b : Candidate) : Prop :=
  c_index a + c_length a <= c_index b.

Definition rangeBefore (r1 r2 : Range) : Prop :=
  end_ r1 <= start r2.

(** A match part of [text] with the place of its span in [text]; the
    delimiter of its rule does not occur in its payload. *)
Definition partFrom (text : JsString) (p : Part) : Prop :=
  match p with
  | PString s => s <> []
  | PMatch content rule =>
      In rule rules /\
      (exists pre post,
          text = pre ++ (delimiter (regex rule) ++ content
                         ++ delimiter (regex rule)) ++ post) /\
      ~ occursIn (delimiter (regex rule)) content
  end.

(** * Vocabulary of the round trip *)

(** The node that [parts.forEach] appends for a part: a text node with the
    characters of a literal part; for a match, the element of its rule
    whose children are the rendering of the payload. *)
Definition emitted (p : Part) (n : Node) : Prop :=
  match p with
  | PString s => n = TextNode s
  | PMatch content rule =>
      exists children,
        resolve content = Some children /\
        n = Element (tagOf rule) (cssOf rule) children
  end.

(** The parts with the ranges that their spans occupy when they are laid
    out one after the other from offset [o]. *)
Fixpoint layout (o : nat) (ps : list Part) : list (Range * Part) :=
  match ps with
  | [] => []
  | p :: ps' =>
      let e := o + length (spanOf p) in
      ({| start := o; end_ := e |}, p) :: layout e ps'
  end.

(** The ranges of the literal parts in that layout. *)
Fixpoint literalRanges (o : nat) (ps : list Part) : list Range :=
  match ps with
  | [] => []
  | p :: ps' =>
      let e := o + length (spanOf p) in
      match p with
      | PString _ => {| start := o; end_ := e |} :: literalRanges e ps'
      | PMatch _ _ => literalRanges e ps'
      end
  end.

(** The stretches of [[o, len)] that a list of ranges in text order leaves
    out: before the first range, between two ranges, after the last. *)
Fixpoint gaps (o : nat) (ranges : list Range) (len : nat) : list Range :=
  match ranges with
  | [] => if o <? len then [{| start := o; end_ := len |}] else []
  | r :: rs =>
      (if o <? start r then [{| start := o; end_ := start r |}] else [])
      ++ gaps (end_ r) rs len
  end.

(** * Properties of matching *)

Lemma startsWith_app (d t : JsString) : startsWith d (d ++ t) = true.
Proof.
  induction d as [|x d IH]; simpl; [reflexivity|].
  now rewrite N.eqb_refl, IH.
Qed.

Lemma startsWith_inv (d s : JsString) :
  startsWith d s = true -> exists t, s = d ++ t.
Proof.
  revert s; induction d as [|x d IH]; intros s H; simpl in *.
  - now exists s.
  - destruct s as [|y s]; [discriminate|].
    apply andb_true_iff in H as [Hxy Hd].
    apply N.eqb_eq in Hxy; subst y.
    destruct (IH _ Hd) as [t ->]. now exists t.
Qed.

Lemma lazyGroup_inv (d s p : JsString) :
  lazyGroup d s = Some p -> exists t, s = p ++ d ++ t.
Proof.
  revert p; induction s as [|c s IH]; intros p H.
  - simpl in H. destruct (startsWith d []) eqn:E; [|discriminate].
    injection H as <-. now apply startsWith_inv.
  - simpl in H. destruct (startsWith d (c :: s)) eqn:E.
    + injection H as <-. now apply startsWith_inv.
    + destruct (isLineTerminator c); [discriminate|].
      destruct (lazyGroup d s) as [q|] eqn:Eq; [|discriminate].
      injection H as <-. destruct (IH q eq_refl) as [t ->].
      now exists t.
Qed.

Lemma matchHere_inv (d s p : JsString) :
  matchHere d s = Some p -> exists t, s = d ++ p ++ d ++ t.
Proof.
  unfold matchHere. intros H.
  destruct (startsWith d s) eqn:E; [|discriminate].
  apply startsWith_inv in E as [t ->].
  rewrite skipn_app, skipn_all, Nat.sub_diag in H. simpl in H.
  apply lazyGroup_inv in H as [u ->]. now exists u.
Qed.

Lemma matchHere_firstn (d s p : JsString) :
  matchHere d s = Some p ->
  exists t,
    s = (d ++ p ++ d) ++ t /\
    firstn (length d + length p + length d) s = d ++ p ++ d.
Proof.
  intros H. destruct (matchHere_inv _ _ H) as [t ->].
  exists t. rewrite <- !app_assoc. split; [reflexivity|].
  replace (d ++ p ++ d ++ t) with ((d ++ p ++ d) ++ t)
    by now rewrite <- !app_assoc.
  replace (length d + length p + length d) with (length (d ++ p ++ d) + 0)
    by (rewrite !length_app; lia).
  rewrite firstn_app_2. simpl. now rewrite app_nil_r.
Qed.

Lemma search_inv (d : JsString) :
  forall s i m, search d s i = Some m ->
  exists pre post,
    s = pre ++ m0 m ++ post /\ index m = i + length pre /\
    m0 m = d ++ m1 m ++ d /\ matchHere d (m0 m ++ post) = Some (m1 m).
Proof.
  assert (Hhere : forall s i p,
             matchHere d s = Some p ->
             let m := {| index := i;
                         m0 := firstn (length d + length p + length d) s;
                         m1 := p |} in
             exists pre post,
               s = pre ++ m0 m ++ post /\ index m = i + length pre /\
               m0 m = d ++ m1 m ++ d /\
               matchHere d (m0 m ++ post) = Some (m1 m)).
  { intros s i p E. destruct (matchHere_firstn _ _ E) as (t & Hs & Hf).
    exists [], t. simpl. rewrite Hf, <- Hs. repeat split; trivial. }
  induction s as [|c s IH]; intros i m H; simpl in H.
  - destruct (matchHere d []) as [p|] eqn:E; [|discriminate].
    injection H as <-. now apply Hhere.
  - destruct (matchHere d (c :: s)) as [p|] eqn:E.
    + injection H as <-. now apply Hhere.
    + destruct (IH _ _ H) as (pre & post & Hs & Hi & Hm & Hh).
      exists (c :: pre), post. repeat split; trivial.
      * simpl. now rewrite <- Hs.
      * simpl. lia.
Qed.

Lemma exec_inv (re : RegExp) (li : nat) (text : JsString) m :
  exec re li text = Some m ->
  exists pre post,
    text = pre ++ m0 m ++ post /\ length pre = index m /\ li <= index m /\
    m0 m = delimiter re ++ m1 m ++ delimiter re /\
    matchHere (delimiter re) (m0 m ++ post) = Some (m1 m).
Proof.
  unfold exec. intros H.
  destruct (Nat.ltb_spec (length text) li) as [Hlt|Hle]; [discriminate|].
  destruct (search_inv _ _ _ H) as (pre & post & Hs & Hi & Hm & Hh).
  exists (firstn li text ++ pre), post.
  rewrite <- app_assoc, <- Hs, firstn_skipn, length_app, length_firstn.
  repeat split; trivial; lia.
Qed.

Lemma matchedAt_bound text c :
  matchedAt text c -> c_index c + c_length c <= length text.
Proof.
  intros (Hi & Hl & _ & pre & post & Ht & Hp & _).
  rewrite Ht, !length_app. lia.
Qed.

Lemma matchedAt_length text c :
  matchedAt text c ->
  c_length c
  = 2 * length (delimiter (regex (c_rule c))) + length (m1 (c_match c)).
Proof.
  intros (Hi & Hl & Hm & _). rewrite Hl, Hm, !length_app. lia.
Qed.

Lemma execLoop_total (rule : Rule) (text : JsString) :
  delimiter (regex rule) <> [] ->
  forall fuel li, length text - li < fuel ->
  exists l,
    execLoop fuel rule text li = Some l /\
    Forall (fun c => c_rule c = rule /\ li <= c_index c /\ matchedAt text c) l /\
    StronglySorted (fun a b => c_index a < c_index b) l.
Proof.
  intros Hd. induction fuel as [|fuel IH]; intros li Hf; [lia|].
  simpl. destruct (exec (regex rule) li text) as [m|] eqn:E.
  - destruct (exec_inv _ _ _ E) as (pre & post & Ht & Hp & Hli & Hm & Hh).
    assert (Hlen : 0 < length (m0 m)).
    { rewrite Hm, !length_app.
      destruct (delimiter (regex rule)); [congruence|simpl; lia]. }
    assert (Hb : index m + length (m0 m) <= length text).
    { rewrite Ht, !length_app. lia. }
    destruct (IH (index m + length (m0 m))) as (l & -> & Hall & Hs); [lia|].
    eexists; split; [reflexivity|]. split.
    + constructor.
      * simpl. split; [|split]; trivial.
        repeat split; trivial. exists pre, post. simpl. auto.
      * eapply Forall_impl; [|exact Hall]. cbv beta.
        intros c (? & ? & ?). split; [|split]; trivial. lia.
    + constructor; trivial.
      eapply Forall_impl; [|exact Hall]. cbv beta.
      intros c (? & ? & ?). simpl. lia.
  - exists []. repeat split; constructor.
Qed.

Lemma discover_total (text : JsString) :
  forall rs,
    Forall (fun r => delimiter (regex r) <> []) rs ->
    StronglySorted (fun a b => rulePos a < rulePos b) rs ->
    exists l,
      discover rs text = Some l /\
      Forall (fun c => In (c_rule c) rs /\ matchedAt text c) l /\
      StronglySorted pushedBefore l.
Proof.
  induction rs as [|r rs IH]; intros Hne Hpos.
  - exists []. repeat split; constructor.
  - inversion Hne as [|? ? Hr Hrs]; subst.
    inversion Hpos as [|? ? Hpos' Hlt]; subst.
    destruct (IH Hrs Hpos') as (rest & Hrest & Hall & Hsorted).
    destruct (@execLoop_total r text Hr (S (length text)) 0)
      as (ms & Hms & Hmall & Hmsorted); [lia|].
    exists (ms ++ rest). simpl. unfold matchesOf. rewrite Hms, Hrest. simpl.
    split; [reflexivity|]. split.
    + apply Forall_app. split.
      * eapply Forall_impl; [|exact Hmall]. cbv beta.
        intros c (-> & _ & Hc). split; [now left|exact Hc].
      * eapply Forall_impl; [|exact Hall]. cbv beta.
        intros c (Hin & Hc). split; [now right|exact Hc].
    + clear Hms Hrest IH Hne Hpos Hr Hrs.
      induction ms as [|c ms IHms]; simpl; [exact Hsorted|].
      inversion Hmall as [|? ? (Hc & _ & _) Hmall']; subst.
      inversion Hmsorted as [|? ? Hmsorted' Hclt]; subst.
      constructor; [now apply IHms|].
      apply Forall_app. split.
      * rewrite Forall_forall in *. intros c' Hc'. right.
        destruct (Hmall' _ Hc') as (-> & _). split; [reflexivity|].
        now apply Hclt.
      * rewrite Forall_forall in *. intros c' Hc'. left.
        destruct (Hall _ Hc') as (Hin & _). now apply Hlt.
Qed.

Lemma rules_nonempty : Forall (fun r => delimiter (regex r) <> []) rules.
Proof. repeat constructor; discriminate. Qed.

Lemma rules_positions :
  StronglySorted (fun a b => rulePos a < rulePos b) rules.
Proof. repeat constructor; vm_compute; lia. Qed.

Lemma discover_rules (text : JsString) :
  exists l,
    discover rules text = Some l /\
    Forall (fun c => In (c_rule c) rules /\ matchedAt text c) l /\
    StronglySorted pushedBefore l.
Proof. apply discover_total; [apply rules_nonempty|apply rules_positions]. Qed.

(** ** The comparison function and the stable sort *)

Lemma compareFn_lt a b :
  (compareFn a b < 0)%Z <->
  c_index a < c_index b \/ (c_index a = c_index b /\ c_length b < c_length a).
Proof. unfold compareFn. destruct (Z.eqb_spec (Z.of_nat (c_index a) - Z.of_nat (c_index b)) 0); lia. Qed.

Lemma compareFn_eq a b :
  compareFn a b = 0%Z <->
  c_index a = c_index b /\ c_length a = c_length b.
Proof. unfold compareFn. destruct (Z.eqb_spec (Z.of_nat (c_index a) - Z.of_nat (c_index b)) 0); lia. Qed.

Lemma compareFn_antisym a b :
  (0 < compareFn a b)%Z -> (compareFn b a < 0)%Z.
Proof.
  unfold compareFn.
  destruct (Z.eqb_spec (Z.of_nat (c_index a) - Z.of_nat (c_index b)) 0);
    destruct (Z.eqb_spec (Z.of_nat (c_index b) - Z.of_nat (c_index a)) 0); lia.
Qed.

Lemma compareFn_trans a b c :
  (compareFn a b <= 0)%Z -> (compareFn b c <= 0)%Z -> (compareFn a c <= 0)%Z.
Proof.
  unfold compareFn.
  destruct (Z.eqb_spec (Z.of_nat (c_index a) - Z.of_nat (c_index b)) 0);
    destruct (Z.eqb_spec (Z.of_nat (c_index b) - Z.of_nat (c_index c)) 0);
    destruct (Z.eqb_spec (Z.of_nat (c_index a) - Z.of_nat (c_index c)) 0); lia.
Qed.

Lemma insert_perm x l : Permutation (x :: l) (insert x l).
Proof.
  induction l as [|y l IH]; simpl; [reflexivity|].
  destruct (0 <? compareFn x y)%Z; [|reflexivity].
  rewrite perm_swap. now constructor.
Qed.

Lemma sort_perm l : Permutation l (sort l).
Proof.
  induction l as [|x l IH]; simpl; [constructor|].
  rewrite <- insert_perm. now constructor.
Qed.

Section Stability.
(** The order of the input list. *)
Variable orig : Candidate -> Candidate -> Prop.

Lemma sortedStable_le a b :
  sortedStable orig a b -> (compareFn a b <= 0)%Z.
Proof. intros [H|[H _]]; lia. Qed.

Lemma insert_sorted x l :
  Forall (orig x) l ->
  StronglySorted (sortedStable orig) l ->
  StronglySorted (sortedStable orig) (insert x l).
Proof.
  induction l as [|y l IH]; intros Hx Hs; simpl.
  - repeat constructor.
  - inversion Hx as [|? ? Hxy Hxl]; subst.
    inversion Hs as [|? ? Hs' Hy]; subst.
    destruct (Z.ltb_spec 0 (compareFn x y)) as [Hgt|Hle].
    + constructor; [now apply IH|].
      rewrite <- insert_perm. constructor; [|exact Hy].
      left. now apply compareFn_antisym.
    + constructor; [exact Hs|].
      assert (Hall : Forall (fun z => (compareFn x z <= 0)%Z) (y :: l)).
      { constructor; [exact Hle|].
        eapply Forall_impl; [|exact Hy]. cbv beta. intros z Hz.
        eapply compareFn_trans; [exact Hle|now apply sortedStable_le]. }
      rewrite Forall_forall in *. intros z Hz.
      specialize (Hall _ Hz). specialize (Hx _ Hz). unfold sortedStable.
      destruct (Z.eq_dec (compareFn x z) 0); [right; split; trivial|left; lia].
Qed.

Lemma sort_sorted l :
  StronglySorted orig l -> StronglySorted (sortedStable orig) (sort l).
Proof.
  induction l as [|x l IH]; intros Hs; simpl; [constructor|].
  inversion Hs as [|? ? Hs' Hx]; subst.
  apply insert_sorted; [|now apply IH].
  now rewrite <- sort_perm.
Qed.
End Stability.

Lemma StronglySorted_impl {A} (R S : A -> A -> Prop) l :
  (forall a b, R a b -> S a b) -> StronglySorted R l -> StronglySorted S l.
Proof.
  intros HRS. induction 1 as [|a l Hs IH Ha]; constructor; trivial.
  eapply Forall_impl; [|exact Ha]. auto.
Qed.

Lemma sortedStable_precedes a b :
  sortedStable pushedBefore a b -> precedes a b.
Proof.
  unfold sortedStable, precedes, pushedBefore.
  rewrite compareFn_lt, compareFn_eq. intros [H|[[Hi Hl] [H|[_ H]]]]; lia.
Qed.

Lemma sort_precedes l :
  StronglySorted pushedBefore l -> StronglySorted precedes (sort l).
Proof.
  intros H. eapply StronglySorted_impl; [apply sortedStable_precedes|].
  now apply sort_sorted.
Qed.





(** * Ordering of the candidates *)


(** * Selection *)

Lemma isOverlapping_spec (ranges : list Range) (s e : nat) :
  isOverlapping ranges s e = true <->
  exists r, In r ranges /\ sharePosition {| start := s; end_ := e |} r.
Proof.
  unfold isOverlapping. rewrite existsb_exists. split.
  - intros (r & Hin & Hlt). apply Nat.ltb_lt in Hlt.
    exists r. split; [exact Hin|].
    exists (Nat.max s (start r)). unfold inRange; simpl. lia.
  - intros (r & Hin & p & [H1 H2] & [H3 H4]). simpl in *.
    exists r. split; [exact Hin|]. apply Nat.ltb_lt. lia.
Qed.

Lemma sharePosition_sym r1 r2 : sharePosition r1 r2 -> sharePosition r2 r1.
Proof. intros (p & H1 & H2). now exists p. Qed.

(** One round either discards the candidate and changes nothing, or
    accepts it whole. *)
Lemma selectStep_cases (text : JsString) (st : LoopState) (c : Candidate) :
  ((exists r, In r (processedRanges st) /\ sharePosition (rangeOf c) r) /\
   selectStep text st c = st)
  \/
  ((forall r, In r (processedRanges st) -> ~ sharePosition (rangeOf c) r) /\
   processedRanges (selectStep text st c) = processedRanges st ++ [rangeOf c] /\
   exists gap,
     parts (selectStep text st c)
     = parts st ++ gap ++ [PMatch (m1 (c_match c)) (c_rule c)]).
Proof.
  unfold selectStep.
  destruct (isOverlapping (processedRanges st) (c_index c)
                          (c_index c + c_length c)) eqn:E.
  - left. split; [|reflexivity]. now apply isOverlapping_spec.
  - right. simpl. split; [|split; [reflexivity|eauto]].
    intros r Hin Hshare.
    assert (H : isOverlapping (processedRanges st) (c_index c)
                              (c_index c + c_length c) = true)
      by (apply isOverlapping_spec; eauto).
    congruence.
Qed.

Lemma select_grows (text : JsString) :
  forall l st, exists more,
    processedRanges (fold_left (selectStep text) l st)
    = processedRanges st ++ more.
Proof.
  induction l as [|c l IH]; intros st; simpl.
  - exists []. now rewrite app_nil_r.
  - destruct (IH (selectStep text st c)) as [more ->].
    destruct (selectStep_cases text st c) as [[_ ->]|(_ & -> & _)].
    + now exists more.
    + exists (rangeOf c :: more). now rewrite <- app_assoc.
Qed.

Lemma ForallOrdPairs_snoc {A} (R : A -> A -> Prop) l x :
  ForallOrdPairs R l -> Forall (fun y => R y x) l ->
  ForallOrdPairs R (l ++ [x]).
Proof.
  induction 1 as [|y l Hy Hl IH]; intros Hx; simpl.
  - repeat constructor.
  - inversion Hx; subst. constructor; [|now apply IH].
    apply Forall_app. split; [exact Hy|]. now repeat constructor.
Qed.

Lemma select_disjoint (text : JsString) :
  forall l st,
    ForallOrdPairs (fun r1 r2 => ~ sharePosition r1 r2) (processedRanges st) ->
    ForallOrdPairs (fun r1 r2 => ~ sharePosition r1 r2)
                   (processedRanges (fold_left (selectStep text) l st)).
Proof.
  induction l as [|c l IH]; intros st Hst; simpl; [exact Hst|].
  apply IH.
  destruct (selectStep_cases text st c) as [[_ ->]|(Hno & -> & _)];
    [exact Hst|].
  apply ForallOrdPairs_snoc; [exact Hst|].
  apply Forall_forall. intros r Hin Hshare.
  apply (Hno r Hin). now apply sharePosition_sym.
Qed.

Lemma select_whole (text : JsString) :
  forall l st r,
    In r (processedRanges (fold_left (selectStep text) l st)) ->
    In r (processedRanges st) \/ exists c, In c l /\ r = rangeOf c.
Proof.
  induction l as [|c l IH]; intros st r Hin; simpl in *; [now left|].
  destruct (IH _ _ Hin) as [H|(c' & Hc' & ->)].
  - destruct (selectStep_cases text st c) as [[_ E]|(_ & E & _)];
      rewrite E in H.
    + now left.
    + apply in_app_or in H as [H|[<-|[]]]; [now left|].
      right. exists c. split; [now left|reflexivity].
  - right. exists c'. split; [now right|reflexivity].
Qed.

(** * Selection of ranges *)

(** C3: selection walks the ordered list once.  A candidate whose
    interval shares a character position with an interval accepted before
    it is discarded and leaves the state untouched; any other candidate is
    accepted with its whole interval, which then stays accepted to the end
    of the walk.  The accepted intervals are intervals of discovered
    candidates and are pairwise disjoint. *)
Theorem selection_disjoint (text : JsString) :
  exists allMatches,
    discover rules text = Some allMatches /\
    let final := select text (sort allMatches) in
    (forall l1 c l2,
        sort allMatches = l1 ++ c :: l2 ->
        let st := fold_left (selectStep text) l1 initState in
        (((exists r, In r (processedRanges st) /\
                     sharePosition (rangeOf c) r) /\
          selectStep text st c = st)
         \/
         ((forall r, In r (processedRanges st) ->
                     ~ sharePosition (rangeOf c) r) /\
          processedRanges (selectStep text st c)
          = processedRanges st ++ [rangeOf c])) /\
        exists more,
          processedRanges final
          = processedRanges (selectStep text st c) ++ more) /\
    (forall r, In r (processedRanges final) ->
               exists c, In c allMatches /\ r = rangeOf c) /\
    ForallOrdPairs (fun r1 r2 => ~ sharePosition r1 r2)
                   (processedRanges final).
Proof.
  destruct (discover_rules text) as (l & Hl & _).
  exists l. split; [exact Hl|]. cbv zeta. split; [|split].
  - intros l1 c l2 Hsplit. split.
    + destruct (selectStep_cases text
                  (fold_left (selectStep text) l1 initState) c)
        as [H|(H1 & H2 & _)]; [now left|now right].
    + unfold select. rewrite Hsplit, fold_left_app. simpl.
      apply select_grows.
  - intros r Hin. unfold select in Hin.
    apply select_whole in Hin as [[]|(c & Hc & ->)].
    exists c. split; [|reflexivity]. now rewrite sort_perm.
  - apply select_disjoint. constructor.
Qed.

(** * Segmentation *)

Lemma firstn_add {A} (a b : nat) (l : list A) :
  firstn (a + b) l = firstn a l ++ firstn b (skipn a l).
Proof.
  revert l; induction a as [|a IH]; intros l; simpl; [reflexivity|].
  destruct l as [|x l]; simpl.
  - now rewrite firstn_nil.
  - now rewrite IH.
Qed.

Lemma substring_gap (text : JsString) (lo hi : nat) :
  lo <= hi -> hi <= length text ->
  firstn lo text ++ substring text lo hi = firstn hi text.
Proof.
  intros H1 H2. unfold substring.
  rewrite (Nat.min_l lo), (Nat.min_l hi), Nat.min_l, Nat.max_r by lia.
  replace hi with (lo + (hi - lo)) at 2 by lia.
  now rewrite firstn_add.
Qed.

Lemma matchRanges_app (l1 l2 : list Part) :
  forall o,
    matchRanges o (l1 ++ l2)
    = matchRanges o l1
      ++ matchRanges (o + length (concat (map spanOf l1))) l2.
Proof.
  induction l1 as [|p l1 IH]; intros o; simpl.
  - now rewrite Nat.add_0_r.
  - rewrite length_app, Nat.add_assoc.
    destruct p; simpl; now rewrite IH.
Qed.

Lemma matchedAt_firstn text c :
  matchedAt text c ->
  firstn (c_index c) text ++ spanOf (PMatch (m1 (c_match c)) (c_rule c))
  = firstn (c_index c + c_length c) text.
Proof.
  intros (Hi & Hl & Hm & pre & post & Ht & Hp & _). simpl.
  rewrite <- Hm, Hl, firstn_add. f_equal.
  rewrite Ht at 1.
  rewrite <- Hp, skipn_app, skipn_all, Nat.sub_diag. simpl.
  replace (length (m0 (c_match c))) with (length (m0 (c_match c)) + 0) by lia.
  rewrite firstn_app_2. simpl. now rewrite app_nil_r.
Qed.

Lemma matchedAt_positive text c :
  In (c_rule c) rules -> matchedAt text c -> 0 < c_length c.
Proof.
  intros Hr Hm. rewrite (matchedAt_length Hm).
  pose proof rules_nonempty as Hne. rewrite Forall_forall in Hne.
  specialize (Hne _ Hr). destruct (delimiter (regex (c_rule c)));
    [congruence|simpl; lia].
Qed.

(** An accepted candidate starts at or after [lastIndex]. *)
Lemma accepted_after (st : LoopState) (c : Candidate) (r : Range) :
  In r (processedRanges st) -> end_ r = lastIndex st ->
  start r <= c_index c -> 0 < c_length c ->
  isOverlapping (processedRanges st) (c_index c) (c_index c + c_length c)
  = false ->
  lastIndex st <= c_index c.
Proof.
  intros Hin Hend Hstart Hlen Hno. unfold isOverlapping in Hno.
  destruct (le_lt_dec (lastIndex st) (c_index c)) as [H|H]; [exact H|].
  exfalso. enough (E : existsb
     (fun range => Nat.max (c_index c) (start range)
                   <? Nat.min (c_index c + c_length c) (end_ range))
     (processedRanges st) = true) by congruence.
  apply existsb_exists. exists r. split; [exact Hin|].
  apply Nat.ltb_lt. lia.
Qed.

Lemma select_covered (text : JsString) :
  forall l st,
    StronglySorted (fun a b => c_index a <= c_index b) l ->
    Forall (fun c => In (c_rule c) rules /\ matchedAt text c) l ->
    covered text st ->
    (lastIndex st = 0 \/
     exists r, In r (processedRanges st) /\ end_ r = lastIndex st /\
               Forall (fun c => start r <= c_index c) l) ->
    covered text (fold_left (selectStep text) l st).
Proof.
  induction l as [|c l IH]; intros st Hs Hall Hcov Hlast; simpl;
    [exact Hcov|].
  apply StronglySorted_inv in Hs as [Hs Hc].
  inversion Hall as [|? ? [Hrule Hm] Hall']; subst.
  apply IH; trivial; unfold selectStep;
    destruct (isOverlapping (processedRanges st) (c_index c)
                            (c_index c + c_length c)) eqn:E.
  - exact Hcov.
  - destruct Hcov as (Hle & Hparts & Hranges). 
    pose proof (matchedAt_bound Hm) as Hb.
    pose proof (matchedAt_positive Hrule Hm) as Hpos.
    assert (Hafter : lastIndex st <= c_index c).
    { destruct Hlast as [H0|(r & Hin & Hend & Hstart)]; [lia|].
      inversion Hstart; subst. eapply accepted_after; eauto. }
    assert (Hgap : concat (map spanOf
                (parts st
                 ++ (if lastIndex st <? c_index c
                     then [PString (substring text (lastIndex st) (c_index c))]
                     else [])))
              = firstn (c_index c) text).
    { rewrite map_app, concat_app, Hparts.
      destruct (Nat.ltb_spec (lastIndex st) (c_index c)) as [Hlt|Hge].
      - simpl. rewrite app_nil_r. apply substring_gap; lia.
      - simpl. rewrite app_nil_r. f_equal. lia. }
    unfold covered; simpl. split; [exact Hb|]. split.
    + rewrite app_assoc, map_app, concat_app, Hgap. simpl concat.
      rewrite app_nil_r. now apply matchedAt_firstn.
    + rewrite app_assoc, matchRanges_app, Hgap, length_firstn.
      rewrite Nat.min_l by lia. rewrite matchRanges_app.
      rewrite Hranges. simpl.
      replace (matchRanges _ (if lastIndex st <? c_index c then _ else _))
        with (@nil Range) by (destruct (lastIndex st <? c_index c); reflexivity).
      simpl. rewrite app_nil_r, !length_app, (matchedAt_length Hm).
      do 3 f_equal. lia.
  - destruct Hlast as [H0|(r & Hin & Hend & Hstart)]; [now left|].
    right. exists r. inversion Hstart; subst. auto.
  - right. exists (rangeOf c). simpl. split; [|split; [reflexivity|]].
    + apply in_or_app. right. now left.
    + exact Hc.
Qed.

Lemma select_fits (text : JsString) :
  forall l st,
    Forall (fun c => In (c_rule c) rules /\ matchedAt text c) l ->
    Forall (partFits text) (parts st) ->
    Forall (partFits text) (parts (fold_left (selectStep text) l st)).
Proof.
  induction l as [|c l IH]; intros st Hall Hst; simpl; [exact Hst|].
  inversion Hall as [|? ? [Hrule Hm] Hall']; subst.
  apply IH; [exact Hall'|].
  unfold selectStep.
  destruct (isOverlapping (processedRanges st) (c_index c)
                          (c_index c + c_length c)); [exact Hst|].
  simpl. apply Forall_app. split; [exact Hst|].
  apply Forall_app. split.
  - destruct (lastIndex st <? c_index c); repeat constructor.
  - constructor; [|constructor]. split; [exact Hrule|].
    pose proof (matchedAt_bound Hm). rewrite (matchedAt_length Hm) in *. lia.
Qed.

Lemma precedes_index a b : precedes a b -> c_index a <= c_index b.
Proof. unfold precedes. lia. Qed.

(** What the first half of [applyRules] produces for any text. *)
Lemma partsOf_spec (text : JsString) :
  exists allMatches,
    discover rules text = Some allMatches /\
    partsOf text
    = Some (finish text (select text (sort allMatches))) /\
    covered text (select text (sort allMatches)) /\
    concat (map spanOf (finish text (select text (sort allMatches)))) = text /\
    Forall (partFits text) (finish text (select text (sort allMatches))).
Proof.
  destruct (discover_rules text) as (l & Hl & Hall & Hpushed).
  exists l. split; [exact Hl|]. split; [unfold partsOf; now rewrite Hl|].
  assert (Hall' : Forall (fun c => In (c_rule c) rules /\ matchedAt text c)
                         (sort l)).
  { rewrite Forall_forall in *. intros c Hc. apply Hall.
    now rewrite sort_perm. }
  assert (Hcov : covered text (select text (sort l))).
  { apply select_covered; trivial.
    - eapply StronglySorted_impl; [apply precedes_index|].
      now apply sort_precedes.
    - unfold covered; simpl. repeat split. lia.
    - now left. }
  split; [exact Hcov|]. split.
  - destruct Hcov as (Hle & Hparts & _). unfold finish.
    rewrite map_app, concat_app, Hparts.
    destruct (Nat.ltb_spec (lastIndex (select text (sort l))) (length text)).
    + simpl. rewrite app_nil_r, substring_gap by lia. apply firstn_all.
    + simpl. rewrite app_nil_r. apply firstn_all2. lia.
  - unfold finish. apply Forall_app. split.
    + apply select_fits; [exact Hall'|constructor].
    + destruct (_ <? _); repeat constructor.
Qed.

(** * Emission *)

Lemma mapM_Forall2 {A B} (f : A -> option B) (P : A -> B -> Prop) l :
  Forall (fun a => exists b, f a = Some b /\ P a b) l ->
  exists bs, mapM f l = Some bs /\ Forall2 P l bs.
Proof.
  induction 1 as [|a l (b & Hb & HP) _ (bs & Hbs & HF)]; simpl.
  - exists []. split; [reflexivity|constructor].
  - rewrite Hb, Hbs. simpl. exists (b :: bs).
    split; [reflexivity|now constructor].
Qed.

Lemma mapM_ext {A B} (f g : A -> option B) l :
  Forall (fun a => f a = g a) l -> mapM f l = mapM g l.
Proof.
  induction 1 as [|a l Ha _ IH]; simpl; [reflexivity|].
  now rewrite Ha, IH.
Qed.

Lemma markerFor_rule (rule : Rule) :
  In rule rules -> markerFor (tagOf rule) (cssOf rule) = delimiter (regex rule).
Proof.
  simpl. intros [<-|[<-|[<-|[<-|[<-|[<-|[]]]]]]]; reflexivity.
Qed.

Lemma partFits_shorter text content rule :
  partFits text (PMatch content rule) -> length content + 2 <= length text.
Proof.
  intros [Hr Hlen]. pose proof rules_nonempty as Hne.
  rewrite Forall_forall in Hne. specialize (Hne _ Hr).
  destruct (delimiter (regex rule)); [congruence|simpl in *; lia].
Qed.

Lemma unparse_parts (ps : list Part) (ns : list Node) :
  Forall2 (fun p n => unparse n = spanOf p) ps ns ->
  concat (map unparse ns) = concat (map spanOf ps).
Proof.
  induction 1 as [|p n ps ns Hpn _ IH]; simpl; [reflexivity|].
  now rewrite Hpn, IH.
Qed.

Lemma applyRules_spec :
  forall fuel text,
    length text < fuel ->
    exists nodes,
      applyRules fuel text = Some nodes /\
      concat (map unparse nodes) = text.
Proof.
  induction fuel as [|fuel IH]; intros text Hfuel; [lia|].
  destruct (partsOf_spec text) as (l & _ & Hparts & _ & Hconcat & Hfits).
  simpl. rewrite Hparts. simpl.
  match goal with |- context [mapM ?f _] => set (emit := f) end.
  destruct (@mapM_Forall2 _ _ emit (fun p n => unparse n = spanOf p)
              (finish text (select text (sort l)))) as (nodes & Hn & Hall).
  - eapply Forall_impl; [|exact Hfits]. cbv beta.
    intros [s|content rule] Hfit; unfold emit.
    + eexists; split; reflexivity.
    + pose proof (partFits_shorter Hfit) as Hshort.
      destruct (IH content) as (children & -> & Hch); [lia|].
      eexists; split; [reflexivity|]. simpl.
      destruct Hfit as [Hr _]. now rewrite (markerFor_rule Hr), Hch.
  - exists nodes. split; [exact Hn|]. rewrite <- Hconcat.
    now apply unparse_parts.
Qed.

Lemma applyRules_fuel :
  forall fuel1 fuel2 text,
    length text < fuel1 -> length text < fuel2 ->
    applyRules fuel1 text = applyRules fuel2 text.
Proof.
  induction fuel1 as [|fuel1 IH]; intros [|fuel2] text H1 H2; try lia.
  destruct (partsOf_spec text) as (l & _ & Hparts & _ & _ & Hfits).
  simpl. rewrite Hparts. simpl. apply mapM_ext.
  eapply Forall_impl; [|exact Hfits]. cbv beta.
  intros [s|content rule] Hfit; [reflexivity|].
  pose proof (partFits_shorter Hfit) as Hshort.
  rewrite (IH fuel2 content); [reflexivity|lia|lia].
Qed.

Lemma unparse_length :
  forall n, length (unparse n) = length (textContent n) + markerChars n.
Proof.
  fix IH 1. intros [data|tagName cssText childNodes]; simpl; [lia|].
  rewrite !length_app.
  assert (H : length (concat (map unparse childNodes))
              = length (concat (map textContent childNodes))
                + list_sum (map markerChars childNodes)).
  { induction childNodes as [|n ns IHns]; simpl; [reflexivity|].
    rewrite !length_app, IH, IHns. lia. }
  lia.
Qed.

Lemma unparse_lengths (nodes : list Node) :
  length (concat (map unparse nodes))
  = length (concat (map textContent nodes))
    + list_sum (map markerChars nodes).
Proof.
  induction nodes as [|n ns IH]; simpl; [reflexivity|].
  rewrite !length_app, unparse_length, IH. lia.
Qed.

Lemma matchRanges_finish text st :
  matchRanges 0 (finish text st) = matchRanges 0 (parts st).
Proof.
  unfold finish. rewrite matchRanges_app.
  destruct (_ <? _); simpl; now rewrite app_nil_r.
Qed.

(** * Termination *)

(** C9: the payload that [applyRules] recurses into lies, together with
    the two delimiters of its rule, inside the caller's text, so it is
    strictly shorter; every depth budget above the length of the text gives
    the same result, which is the result of [resolve]. *)
Theorem recursion_bounded (text : JsString) :
  (exists ps,
      partsOf text = Some ps /\
      Forall (fun p =>
                match p with
                | PString _ => True
                | PMatch content rule =>
                    2 * length (delimiter (regex rule)) + length content
                    <= length text /\
                    length content < length text
                end) ps) /\
  (exists nodes,
      resolve text = Some nodes /\
      forall fuel, length text < fuel -> applyRules fuel text = Some nodes).
Proof.
  split.
  - destruct (partsOf_spec text) as (l & _ & Hparts & _ & _ & Hfits).
    eexists; split; [exact Hparts|].
    eapply Forall_impl; [|exact Hfits]. cbv beta.
    intros [s|content rule] Hfit; [exact I|].
    pose proof (partFits_shorter Hfit). destruct Hfit as [_ Hlen].
    split; [exact Hlen|lia].
  - destruct (@applyRules_spec (S (length text)) text) as (nodes & Hn & _);
      [lia|].
    exists nodes. split; [exact Hn|]. intros fuel Hfuel.
    rewrite <- Hn. apply applyRules_fuel; lia.
Qed.

(** * Fixtures *)

(** The candidates of ["***a***"] in the order in which selection walks
    them: start, length, tag of the rule. *)
Example ordering_fixture :
  option_map
    (fun l => map (fun c => (c_index c, c_length c, tagOf (c_rule c)))
                  (sort l))
    (discover rules (js "***a***"))
  = Some [(0, 6, "strong"); (0, 2, "em"); (2, 3, "em"); (5, 2, "em")]%string.
Proof. vm_compute. reflexivity. Qed.

Example greedy_left_fixture :
  resolve (js "**bold** and *italic*")
  = Some [Element "strong" "" [TextNode (js "bold")];
          TextNode (js " and ");
          Element "em" "" [TextNode (js "italic")]].
Proof. vm_compute. reflexivity. Qed.

Example non_overlap_fixture :
  resolve (js "~~**x**~~")
  = Some [Element "del" "" [Element "strong" "" [TextNode (js "x")]]].
Proof. vm_compute. reflexivity. Qed.

Example size_fixture :
  resolve (js "++big++ --small--")
  = Some [Element "span" "font-size: 1.5em;" [TextNode (js "big")];
          TextNode (js " ");
          Element "span" "font-size: 0.5em;" [TextNode (js "small")]].
Proof. vm_compute. reflexivity. Qed.

(** An unterminated delimiter that no other pattern matches stays in the
    literal text. *)
Example unterminated_deletion :
  resolve (js "~~oops") = Some [TextNode (js "~~oops")].
Proof. vm_compute. reflexivity. Qed.

(** C4, as stated, fails: the two asterisks of ["**oops"] do not stay in
    the literal text. *)
Lemma unterminated_strong_not_literal :
  resolve (js "**oops")
  = Some [Element "em" "" []; TextNode (js "oops")] /\
  resolve (js "**oops") <> Some [TextNode (js "**oops")].
Proof. split; [vm_compute; reflexivity|vm_compute; discriminate]. Qed.

(** C4, amended: in ["**oops"] the strong pattern finds no match, but the
    emphasis pattern matches the two asterisks as a pair with an empty
    payload; the result is an empty emphasis element followed by the
    literal ["oops"]. *)
Theorem unterminated_strong :
  option_map (map rangeOf) (matchesOf (js "**oops") strongRule) = Some [] /\
  option_map (map (fun c => (rangeOf c, m1 (c_match c))))
             (matchesOf (js "**oops") emRule)
  = Some [({| start := 0; end_ := 2 |}, [])] /\
  partsOf (js "**oops") = Some [PMatch [] emRule; PString (js "oops")] /\
  resolve (js "**oops") = Some [Element "em" "" []; TextNode (js "oops")].
Proof. repeat split; vm_compute; reflexivity. Qed.

(** C5, as stated, fails on the empty text: no pattern matches, and no
    node is emitted. *)
Lemma no_marker_empty_text :
  Forall (fun r => exec (regex r) 0 [] = None) rules /\
  resolve [] = Some [] /\
  resolve [] <> Some [TextNode []].
Proof.
  split; [repeat constructor|].
  split; [reflexivity|discriminate].
Qed.

Lemma substring_all (text : JsString) :
  substring text 0 (length text) = text.
Proof.
  unfold substring. rewrite Nat.min_0_l, Nat.min_id, Nat.min_0_l.
  rewrite Nat.max_0_l, Nat.sub_0_r. simpl. apply firstn_all.
Qed.

Lemma discover_none (text : JsString) :
  forall rs,
    Forall (fun r => exec (regex r) 0 text = None) rs ->
    discover rs text = Some [].
Proof.
  induction 1 as [|r rs Hr _ IH]; simpl; [reflexivity|].
  unfold matchesOf. simpl. now rewrite Hr, IH.
Qed.

(** C5, amended: a text that is not empty and in which no pattern of the
    table matches comes back as exactly one literal node with the text
    unchanged. *)
Theorem no_marker_passthrough (text : JsString) :
  text <> [] ->
  Forall (fun r => exec (regex r) 0 text = None) rules ->
  resolve text = Some [TextNode text].
Proof.
  intros Hne Hnone. unfold resolve, applyRules, partsOf.
  rewrite discover_none by exact Hnone. simpl. unfold finish. simpl.
  destruct text as [|c text]; [congruence|].
  change (0 <? length (c :: text)) with true. cbv iota.
  now rewrite substring_all.
Qed.

Lemma no_marker_passthrough_witness :
  js "plain text" <> [] /\
  Forall (fun r => exec (regex r) 0 (js "plain text") = None) rules /\
  resolve (js "plain text") = Some [TextNode (js "plain text")].
Proof.
  assert (H1 : js "plain text" <> []) by (vm_compute; discriminate).
  assert (H2 : Forall (fun r => exec (regex r) 0 (js "plain text") = None)
                      rules)
    by (repeat constructor).
  split; [exact H1|]. split; [exact H2|].
  exact (@no_marker_passthrough (js "plain text") H1 H2).
Defined.

(** C6: ["**bold *and italic*__too__**"] is one strong element whose
    children are the literal ["bold "], an emphasis element with
    ["and italic"] and an underline element with ["too"]. *)
Theorem nesting_fixture :
  resolve (js "**bold *and italic*__too__**")
  = Some [Element "strong" ""
            [TextNode (js "bold ");
             Element "em" "" [TextNode (js "and italic")];
             Element "u" "" [TextNode (js "too")]]].
Proof. vm_compute. reflexivity. Qed.

(** C7: in ["****"] the strong pattern captures an empty payload; the
    match is selected and emitted as one strong element without children,
    and no literal character is emitted. *)
Theorem empty_payload_fixture :
  partsOf (js "****") = Some [PMatch [] strongRule] /\
  resolve (js "****") = Some [Element "strong" "" []] /\
  option_map (fun nodes => concat (map textContent nodes))
             (resolve (js "****")) = Some [].
Proof. repeat split; vm_compute; reflexivity. Qed.

(** C10: the empty text has no candidate and no trailing text, and
    [resolve] emits no node. *)
Theorem empty_text_no_nodes :
  discover rules [] = Some [] /\
  partsOf [] = Some [] /\
  resolve [] = Some [].
Proof. repeat split; reflexivity. Qed.

(** * Further properties of discovery *)

Lemma StronglySorted_app {A} (R : A -> A -> Prop) l1 l2 :
  StronglySorted R l1 -> StronglySorted R l2 ->
  (forall a b, In a l1 -> In b l2 -> R a b) ->
  StronglySorted R (l1 ++ l2).
Proof.
  induction 1 as [|x l1 Hs IH Hx]; intros H2 Hcross; simpl; [exact H2|].
  constructor.
  - apply IH; [exact H2|]. intros a b Ha Hb. apply Hcross; [now right|exact Hb].
  - apply Forall_app. split; [exact Hx|].
    apply Forall_forall. intros b Hb. apply Hcross; [now left|exact Hb].
Qed.

Lemma execLoop_apart (rule : Rule) (text : JsString) :
  forall fuel li l,
    execLoop fuel rule text li = Some l ->
    Forall (fun c => c_rule c = rule /\ li <= c_index c) l /\
    StronglySorted endsBefore l.
Proof.
  induction fuel as [|fuel IH]; intros li l H; [discriminate|].
  simpl in H. destruct (exec (regex rule) li text) as [m|] eqn:E.
  - destruct (execLoop fuel rule text (index m + length (m0 m)))
      as [rest|] eqn:Er; [|discriminate].
    simpl in H. injection H as <-.
    destruct (exec_inv _ _ _ E) as (_ & _ & _ & _ & Hli & _).
    destruct (IH _ _ Er) as (Hall & Hs).
    split.
    + constructor; [simpl; auto|].
      eapply Forall_impl; [|exact Hall]. cbv beta. intros c [? ?].
      split; [assumption|lia].
    + constructor; [exact Hs|].
      eapply Forall_impl; [|exact Hall]. cbv beta. intros c [_ ?].
      unfold endsBefore. simpl. lia.
  - injection H as <-. split; constructor.
Qed.

Lemma discover_apart (text : JsString) :
  forall rs l,
    StronglySorted (fun a b => rulePos a < rulePos b) rs ->
    discover rs text = Some l ->
    Forall (fun c => In (c_rule c) rs) l /\
    StronglySorted (fun a b => c_rule a = c_rule b -> endsBefore a b) l.
Proof.
  induction rs as [|r rs IH]; intros l Hpos H; simpl in H.
  - injection H as <-. split; constructor.
  - apply StronglySorted_inv in Hpos as [Hpos Hr].
    unfold matchesOf in H.
    destruct (execLoop (S (length text)) r text 0) as [ms|] eqn:Ems;
      [|discriminate].
    destruct (discover rs text) as [rest|] eqn:Erest; [|discriminate].
    simpl in H. injection H as <-.
    destruct (execLoop_apart _ _ _ _ Ems) as (Hms & Hsorted).
    destruct (IH _ Hpos eq_refl) as (Hrest & Hrsorted).
    rewrite Forall_forall in Hms, Hrest, Hr. split.
    + apply Forall_forall. intros c Hc. apply in_app_or in Hc as [Hc|Hc].
      * left. symmetry. now apply Hms.
      * right. now apply Hrest.
    + apply StronglySorted_app.
      * eapply StronglySorted_impl; [|exact Hsorted]. auto.
      * exact Hrsorted.
      * intros a b Ha Hb Hab. exfalso.
        destruct (Hms _ Ha) as [Hra _]. specialize (Hrest _ Hb).
        rewrite <- Hab, Hra in Hrest. specialize (Hr _ Hrest). lia.
Qed.

(** X1: two matches of the same rule never overlap: in the order in which
    they were pushed, the earlier one ends at or before the start of the
    later one. *)
Theorem same_rule_matches_apart (text : JsString) :
  exists allMatches,
    discover rules text = Some allMatches /\
    StronglySorted (fun a b => c_rule a = c_rule b -> endsBefore a b)
                   allMatches.
Proof.
  destruct (discover_rules text) as (l & Hl & _).
  exists l. split; [exact Hl|].
  eapply discover_apart; [apply rules_positions|exact Hl].
Qed.

Lemma lazyGroup_shortest (d : JsString) :
  forall s p,
    lazyGroup d s = Some p ->
    Forall (fun c => isLineTerminator c = false) p /\
    forall k, k < length p -> startsWith d (skipn k s) = false.
Proof.
  induction s as [|c s IH]; intros p H; simpl in H.
  - destruct (startsWith d []); [|discriminate]. injection H as <-.
    split; [constructor|]. simpl. intros k Hk. lia.
  - destruct (startsWith d (c :: s)) eqn:E.
    + injection H as <-. split; [constructor|]. simpl. intros k Hk. lia.
    + destruct (isLineTerminator c) eqn:Et; [discriminate|].
      destruct (lazyGroup d s) as [q|] eqn:Eq; [|discriminate].
      injection H as <-. destruct (IH _ eq_refl) as (Hq & Hk).
      split; [now constructor|].
      intros [|k] Hlt; [exact E|]. simpl. apply Hk. simpl in Hlt. lia.
Qed.

Lemma skipn_skipn_add {A} (a b : nat) (l : list A) :
  skipn a (skipn b l) = skipn (b + a) l.
Proof.
  revert l; induction b as [|b IH]; intros l; simpl; [reflexivity|].
  destruct l; [now rewrite skipn_nil|apply IH].
Qed.

Lemma matchedAt_skipn text c :
  matchedAt text c ->
  exists post,
    skipn (c_index c) text = m0 (c_match c) ++ post /\
    matchHere (delimiter (regex (c_rule c))) (skipn (c_index c) text)
    = Some (m1 (c_match c)).
Proof.
  intros (_ & _ & _ & pre & post & Ht & Hp & Hh).
  exists post.
  assert (E : skipn (c_index c) text = m0 (c_match c) ++ post).
  { rewrite Ht at 1. rewrite <- Hp, skipn_app, skipn_all, Nat.sub_diag.
    reflexivity. }
  split; [exact E|]. now rewrite E.
Qed.

(** X2: the capture is the shortest one.  Between the opening delimiter of
    a candidate and its closing delimiter there is no line terminator, and
    the delimiter matches at no offset before the closing one. *)
Theorem capture_is_shortest (text : JsString) :
  exists allMatches,
    discover rules text = Some allMatches /\
    Forall (fun c =>
              let d := delimiter (regex (c_rule c)) in
              let payload := m1 (c_match c) in
              c_length c = length d + length payload + length d /\
              Forall (fun u => isLineTerminator u = false) payload /\
              forall k,
                k < length payload ->
                startsWith d (skipn (c_index c + length d + k) text) = false)
           allMatches.
Proof.
  destruct (discover_rules text) as (l & Hl & Hall & _).
  exists l. split; [exact Hl|].
  eapply Forall_impl; [|exact Hall]. cbv beta zeta. intros c [_ Hm].
  split; [rewrite (matchedAt_length Hm); lia|].
  destruct (matchedAt_skipn Hm) as (post & _ & Hh).
  unfold matchHere in Hh.
  destruct (startsWith _ _); [|discriminate].
  apply lazyGroup_shortest in Hh as [Hterm Hk].
  split; [exact Hterm|]. intros k Hlt.
  rewrite <- Nat.add_assoc, <- skipn_skipn_add, <- skipn_skipn_add.
  now apply Hk.
Qed.

Lemma search_none (d : JsString) :
  forall s i, search d s i = None ->
  forall j, matchHere d (skipn j s) = None.
Proof.
  induction s as [|c s IH]; intros i H j; simpl in H.
  - destruct (matchHere d []) eqn:E; [discriminate|].
    now rewrite skipn_nil.
  - destruct (matchHere d (c :: s)) eqn:E; [discriminate|].
    destruct j as [|j]; [exact E|]. simpl. eapply IH, H.
Qed.

Lemma search_leftmost (d : JsString) :
  forall s i m, search d s i = Some m ->
  forall j, i + j < index m -> matchHere d (skipn j s) = None.
Proof.
  induction s as [|c s IH]; intros i m H j Hj; simpl in H.
  - destruct (matchHere d []) eqn:E.
    + injection H as <-. simpl in Hj. lia.
    + discriminate.
  - destruct (matchHere d (c :: s)) eqn:E.
    + injection H as <-. simpl in Hj. lia.
    + destruct j as [|j]; [exact E|]. simpl.
      eapply IH; [exact H|]. lia.
Qed.

Lemma exec_none (re : RegExp) (li : nat) (text : JsString) :
  li <= length text -> exec re li text = None ->
  forall j, li <= j -> matchHere (delimiter re) (skipn j text) = None.
Proof.
  unfold exec. intros Hle H j Hj.
  destruct (Nat.ltb_spec (length text) li); [lia|].
  replace j with (li + (j - li)) by lia.
  rewrite <- skipn_skipn_add. eapply search_none, H.
Qed.

Lemma exec_leftmost (re : RegExp) (li : nat) (text : JsString) m :
  exec re li text = Some m ->
  forall j, li <= j -> j < index m ->
  matchHere (delimiter re) (skipn j text) = None.
Proof.
  unfold exec. intros H j Hj Hlt.
  destruct (Nat.ltb_spec (length text) li); [discriminate|].
  replace j with (li + (j - li)) by lia.
  rewrite <- skipn_skipn_add. eapply search_leftmost; [exact H|]. lia.
Qed.

Lemma execLoop_complete (rule : Rule) (text : JsString) :
  forall fuel li l,
    li <= length text ->
    execLoop fuel rule text li = Some l ->
    forall j p,
      li <= j ->
      matchHere (delimiter (regex rule)) (skipn j text) = Some p ->
      exists c, In c l /\ c_index c <= j /\ j < c_index c + c_length c.
Proof.
  induction fuel as [|fuel IH]; intros li l Hli H j p Hj Hp; [discriminate|].
  simpl in H. destruct (exec (regex rule) li text) as [m|] eqn:E.
  - destruct (execLoop fuel rule text (index m + length (m0 m)))
      as [rest|] eqn:Er; [|discriminate].
    simpl in H. injection H as <-.
    destruct (exec_inv _ _ _ E) as (pre & post & Ht & Hpre & _ & _ & _).
    destruct (le_lt_dec (index m) j) as [Hge|Hlt].
    + destruct (le_lt_dec (index m + length (m0 m)) j) as [Hafter|Hin].
      * assert (Hb : index m + length (m0 m) <= length text)
          by (rewrite Ht, !length_app; lia).
        destruct (IH _ _ Hb Er j p Hafter Hp) as (c & Hc & Hcj).
        exists c. split; [now right|exact Hcj].
      * eexists. split; [now left|]. simpl. lia.
    + rewrite (@exec_leftmost _ _ _ _ E j Hj Hlt) in Hp. discriminate.
  - rewrite (@exec_none _ _ _ Hli E j Hj) in Hp. discriminate.
Qed.

Lemma discover_complete (text : JsString) :
  forall rs l,
    discover rs text = Some l ->
    forall rule j p,
      In rule rs -> j <= length text ->
      matchHere (delimiter (regex rule)) (skipn j text) = Some p ->
      exists c,
        In c l /\ c_rule c = rule /\
        c_index c <= j /\ j < c_index c + c_length c.
Proof.
  induction rs as [|r rs IH]; intros l H rule j p Hin Hj Hp; [destruct Hin|].
  simpl in H. unfold matchesOf in H.
  destruct (execLoop (S (length text)) r text 0) as [ms|] eqn:Ems;
    [|discriminate].
  destruct (discover rs text) as [rest|] eqn:Erest; [|discriminate].
  simpl in H. injection H as <-.
  destruct Hin as [->|Hin].
  - destruct (@execLoop_complete rule text _ 0 ms (Nat.le_0_l _) Ems j p
                                 (Nat.le_0_l _) Hp) as (c & Hc & Hcj).
    exists c. split; [apply in_or_app; now left|].
    destruct (execLoop_apart _ _ _ _ Ems) as [Hall _].
    rewrite Forall_forall in Hall. split; [now apply Hall|exact Hcj].
  - destruct (IH _ eq_refl rule j p Hin Hj Hp) as (c & Hc & Hcj).
    exists c. split; [apply in_or_app; now right|exact Hcj].
Qed.

(** X3: discovery misses no marker pair.  Wherever the pattern of a rule
    matches in the text, a candidate of that rule covers the offset. *)
Theorem discovery_complete (text : JsString) :
  exists allMatches,
    discover rules text = Some allMatches /\
    forall rule j p,
      In rule rules ->
      matchHere (delimiter (regex rule)) (skipn j text) = Some p ->
      exists c,
        In c allMatches /\ c_rule c = rule /\
        c_index c <= j /\ j < c_index c + c_length c.
Proof.
  destruct (discover_rules text) as (l & Hl & _).
  exists l. split; [exact Hl|]. intros rule j p Hin Hp.
  destruct (le_lt_dec j (length text)) as [Hj|Hj].
  - eapply discover_complete; eauto.
  - rewrite skipn_all2 in Hp by lia.
    apply matchHere_inv in Hp as [t Ht].
    pose proof rules_nonempty as Hne. rewrite Forall_forall in Hne.
    specialize (Hne _ Hin).
    destruct (delimiter (regex rule)); [congruence|discriminate].
Qed.

(** * Further properties of selection *)

Lemma select_parts_grow (text : JsString) :
  forall l st, exists more,
    parts (fold_left (selectStep text) l st) = parts st ++ more.
Proof.
  induction l as [|c l IH]; intros st; simpl.
  - exists []. now rewrite app_nil_r.
  - destruct (IH (selectStep text st c)) as [more ->].
    destruct (selectStep_cases text st c) as [[_ ->]|(_ & _ & gap & ->)].
    + now exists more.
    + eexists. rewrite <- !app_assoc. reflexivity.
Qed.

Lemma rangeOf_shares_itself (c : Candidate) :
  0 < c_length c -> sharePosition (rangeOf c) (rangeOf c).
Proof.
  intros H. exists (c_index c). unfold inRange; simpl. lia.
Qed.

Lemma select_maximal (text : JsString) :
  forall l st c,
    In c l -> 0 < c_length c ->
    exists r,
      In r (processedRanges (fold_left (selectStep text) l st)) /\
      sharePosition (rangeOf c) r.
Proof.
  induction l as [|c' l IH]; intros st c Hin Hpos; [destruct Hin|].
  simpl. destruct Hin as [->|Hin]; [|now apply IH].
  destruct (select_grows text l (selectStep text st c)) as [more ->].
  destruct (selectStep_cases text st c)
    as [[(r & Hr & Hshare) ->]|(_ & -> & _)].
  - exists r. split; [apply in_or_app; now left|exact Hshare].
  - exists (rangeOf c). split; [|now apply rangeOf_shares_itself].
    apply in_or_app. left. apply in_or_app. right. now left.
Qed.

(** X4: selection is maximal.  Every discovered candidate shares a
    character position with an accepted range: it was accepted itself, or
    an accepted range overlaps it. *)
Theorem selection_maximal (text : JsString) :
  exists allMatches,
    discover rules text = Some allMatches /\
    Forall (fun c =>
              exists r,
                In r (processedRanges (select text (sort allMatches))) /\
                sharePosition (rangeOf c) r)
           allMatches.
Proof.
  destruct (discover_rules text) as (l & Hl & Hall & _).
  exists l. split; [exact Hl|].
  rewrite Forall_forall in *. intros c Hc.
  destruct (Hall _ Hc) as [Hr Hm].
  apply select_maximal; [now rewrite <- sort_perm|].
  eapply matchedAt_positive; eauto.
Qed.

Lemma matchRanges_sorted :
  forall ps o,
    Forall (fun r => o <= start r /\
                     end_ r <= o + length (concat (map spanOf ps)))
           (matchRanges o ps) /\
    StronglySorted rangeBefore (matchRanges o ps).
Proof.
  induction ps as [|p ps IH]; intros o; simpl; [split; constructor|].
  destruct (IH (o + length (spanOf p))) as (Hall & Hs).
  rewrite length_app.
  assert (Hall' : Forall (fun r => o <= start r /\
                     end_ r <= o + (length (spanOf p)
                                    + length (concat (map spanOf ps))))
                         (matchRanges (o + length (spanOf p)) ps)).
  { eapply Forall_impl; [|exact Hall]. cbv beta. intros r [? ?]. lia. }
  destruct p as [s|content rule].
  - split; [exact Hall'|exact Hs].
  - split.
    + constructor; [simpl; lia|exact Hall'].
    + constructor; [exact Hs|].
      eapply Forall_impl; [|exact Hall]. cbv beta. intros r [? _].
      unfold rangeBefore. simpl in *. lia.
Qed.

(** X5: the accepted ranges are in text order.  Each lies inside the
    scanned text and is not empty, and each ends at or before the start of
    the range accepted after it. *)
Theorem accepted_ranges_in_order (text : JsString) :
  exists allMatches,
    discover rules text = Some allMatches /\
    let ranges := processedRanges (select text (sort allMatches)) in
    StronglySorted rangeBefore ranges /\
    Forall (fun r => start r < end_ r /\ end_ r <= length text) ranges.
Proof.
  destruct (partsOf_spec text) as (l & Hl & _ & Hcov & _ & _).
  destruct (discover_rules text) as (l' & Hl' & Hall & _).
  assert (l' = l) by congruence. subst l'.
  exists l. split; [exact Hl|]. cbv zeta.
  destruct Hcov as (Hle & Hparts & Hranges).
  destruct (matchRanges_sorted (parts (select text (sort l))) 0)
    as (Hbound & Hsorted).
  rewrite Hranges in Hbound, Hsorted. split; [exact Hsorted|].
  rewrite Forall_forall in *. intros r Hr. split.
  - unfold select in Hr. apply select_whole in Hr as [[]|(c & Hc & ->)].
    rewrite <- sort_perm in Hc. destruct (Hall _ Hc) as [Hrule Hm].
    pose proof (matchedAt_positive Hrule Hm). simpl. lia.
  - destruct (Hbound _ Hr) as [_ He].
    rewrite Hparts, length_firstn in He. lia.
Qed.

(** X6: the candidate that is first in the order always wins.  Its range
    is accepted, and the output starts with the text before it, when there
    is any, followed by its container. *)
Theorem first_candidate_wins (text : JsString) :
  exists allMatches,
    discover rules text = Some allMatches /\
    forall c rest,
      sort allMatches = c :: rest ->
      In (rangeOf c) (processedRanges (select text (sort allMatches))) /\
      exists more,
        finish text (select text (sort allMatches))
        = (if 0 <? c_index c
           then [PString (substring text 0 (c_index c))]
           else [])
          ++ PMatch (m1 (c_match c)) (c_rule c) :: more.
Proof.
  destruct (discover_rules text) as (l & Hl & _).
  exists l. split; [exact Hl|]. intros c rest Hsort.
  unfold select, finish. rewrite Hsort. simpl fold_left.
  destruct (select_grows text rest (selectStep text initState c))
    as [moreR HR].
  destruct (select_parts_grow text rest (selectStep text initState c))
    as [moreP HP].
  rewrite HR, HP. unfold selectStep. simpl. split.
  - now left.
  - eexists. rewrite <- !app_assoc. simpl. reflexivity.
Qed.

(** * Texts without markers *)

Lemma search_absent (c : CodeUnit) (d : JsString) :
  forall s i, ~ In c s -> search (c :: d) s i = None.
Proof.
  intros s i Hc. destruct (search (c :: d) s i) as [m|] eqn:E;
    [|reflexivity].
  exfalso. apply search_inv in E as (pre & post & Hs & _ & Hm & _).
  apply Hc. rewrite Hs, Hm. apply in_or_app. right. now left.
Qed.

Lemma resolve_without_candidates (text : JsString) :
  text <> [] -> discover rules text = Some [] ->
  resolve text = Some [TextNode text].
Proof.
  intros Hne Hnone. unfold resolve, applyRules, partsOf.
  rewrite Hnone. simpl. unfold finish. simpl.
  destruct text as [|c text]; [congruence|].
  change (0 <? length (c :: text)) with true. cbv iota.
  now rewrite substring_all.
Qed.

(** X7: a text that is not empty and contains none of the characters
    [~ _ * + -] is rendered as one text node with the same characters. *)
Theorem plain_text_unchanged (text : JsString) :
  text <> [] ->
  Forall (fun c => ~ In c markerCharacters) text ->
  resolve text = Some [TextNode text].
Proof.
  intros Hne Hplain. apply resolve_without_candidates; [exact Hne|].
  apply discover_none.
  assert (Hfree : forall m, In m markerCharacters -> ~ In m text).
  { intros m Hm Hin. rewrite Forall_forall in Hplain.
    now apply (Hplain _ Hin). }
  unfold exec. simpl skipn. simpl length.
  repeat constructor; simpl; apply search_absent, Hfree; vm_compute; tauto.
Qed.

Lemma plain_text_unchanged_witness :
  js "plain text" <> [] /\
  Forall (fun c => ~ In c markerCharacters) (js "plain text") /\
  resolve (js "plain text") = Some [TextNode (js "plain text")].
Proof.
  assert (H1 : js "plain text" <> []) by (vm_compute; discriminate).
  assert (H2 : Forall (fun c => ~ In c markerCharacters) (js "plain text")).
  { repeat constructor; vm_compute; intuition discriminate. }
  split; [exact H1|]. split; [exact H2|].
  exact (@plain_text_unchanged (js "plain text") H1 H2).
Defined.

(** * Shape of the parts *)

Lemma substring_length (text : JsString) (lo hi : nat) :
  lo <= hi -> hi <= length text -> length (substring text lo hi) = hi - lo.
Proof.
  intros H1 H2. unfold substring.
  rewrite (Nat.min_l lo), (Nat.min_l hi), Nat.min_l, Nat.max_r by lia.
  rewrite length_firstn, length_skipn. lia.
Qed.

Lemma substring_nonempty (text : JsString) (lo hi : nat) :
  lo < hi -> hi <= length text -> substring text lo hi <> [].
Proof.
  intros H1 H2 E. apply (f_equal (@length _)) in E.
  rewrite substring_length in E by lia. simpl in E. lia.
Qed.

Lemma payload_free (d s p : JsString) :
  d <> [] -> matchHere d s = Some p -> ~ occursIn d p.
Proof.
  intros Hd H (pre & post & Hp). unfold matchHere in H.
  destruct (startsWith d s); [|discriminate].
  pose proof (lazyGroup_inv _ _ H) as [t Ht].
  apply lazyGroup_shortest in H as [_ Hk].
  specialize (Hk (length pre)).
  rewrite Ht, Hp in Hk. rewrite <- !app_assoc in Hk.
  rewrite skipn_app, skipn_all, Nat.sub_diag in Hk. simpl in Hk.
  rewrite startsWith_app in Hk.
  enough (false = true) by discriminate. symmetry. apply Hk.
  rewrite !length_app. destruct d; [congruence|simpl; lia].
Qed.

Lemma matchedAt_partFrom text c :
  In (c_rule c) rules -> matchedAt text c ->
  partFrom text (PMatch (m1 (c_match c)) (c_rule c)).
Proof.
  intros Hr Hm. simpl. split; [exact Hr|].
  pose proof Hm as (_ & _ & Hm0 & pre & post & Ht & _ & Hh). split.
  - exists pre, post. now rewrite <- Hm0.
  - pose proof rules_nonempty as Hne. rewrite Forall_forall in Hne.
    eapply payload_free; [apply Hne, Hr|exact Hh].
Qed.

Lemma lastIs_snoc {A} (f : A -> bool) l x : lastIs f (l ++ [x]) = f x.
Proof. unfold lastIs. now rewrite rev_app_distr. Qed.

Lemma lastIs_cons {A} (f : A -> bool) a b l :
  lastIs f (a :: b :: l) = lastIs f (b :: l).
Proof.
  unfold lastIs. simpl. destruct (rev l) as [|x r]; simpl; reflexivity.
Qed.

Lemma adjacent_app {A} (f : A -> bool) (l1 l2 : list A) :
  adjacent f (l1 ++ l2)
  = (adjacent f l1 || adjacent f l2 || (lastIs f l1 && headIs f l2))%bool.
Proof.
  induction l1 as [|a l1 IH]; [simpl; now rewrite orb_false_r|].
  destruct l1 as [|b l1].
  - change (adjacent f ([a] ++ l2))
      with ((f a && headIs f l2) || adjacent f l2)%bool.
    change (adjacent f [a]) with ((f a && false) || false)%bool.
    change (lastIs f [a]) with (f a).
    destruct (f a), (headIs f l2), (adjacent f l2); reflexivity.
  - rewrite lastIs_cons. change ((a :: b :: l1) ++ l2)
      with (a :: (b :: l1) ++ l2).
    change (adjacent f (a :: (b :: l1) ++ l2))
      with ((f a && f b) || adjacent f ((b :: l1) ++ l2))%bool.
    rewrite IH.
    change (adjacent f (a :: b :: l1))
      with ((f a && f b) || adjacent f (b :: l1))%bool.
    now rewrite !orb_assoc.
Qed.

Lemma select_tidy (text : JsString) :
  forall l st,
    Forall (fun c => In (c_rule c) rules /\ matchedAt text c) l ->
    Forall (partFrom text) (parts st) ->
    adjacent isLiteral (parts st) = false ->
    lastIs isLiteral (parts st) = false ->
    let st' := fold_left (selectStep text) l st in
    Forall (partFrom text) (parts st') /\
    adjacent isLiteral (parts st') = false /\
    lastIs isLiteral (parts st') = false.
Proof.
  induction l as [|c l IH]; intros st Hall Hfrom Hadj Hlast; simpl;
    [auto|].
  inversion Hall as [|? ? [Hrule Hm] Hall']; subst.
  unfold selectStep at 2 4 6.
  destruct (isOverlapping (processedRanges st) (c_index c)
                          (c_index c + c_length c)); [now apply IH|].
  pose proof (matchedAt_bound Hm) as Hb.
  apply IH; trivial; simpl.
  - apply Forall_app. split; [exact Hfrom|].
    apply Forall_app. split.
    + destruct (Nat.ltb_spec (lastIndex st) (c_index c));
        repeat constructor. simpl. apply substring_nonempty; lia.
    + constructor; [|constructor]. now apply matchedAt_partFrom.
  - rewrite adjacent_app, Hadj, Hlast.
    destruct (lastIndex st <? c_index c); reflexivity.
  - rewrite app_assoc. apply lastIs_snoc.
Qed.

Lemma partsOf_tidy (text : JsString) :
  exists ps,
    partsOf text = Some ps /\
    Forall (partFrom text) ps /\
    adjacent isLiteral ps = false.
Proof.
  destruct (discover_rules text) as (l & Hl & Hall & _).
  exists (finish text (select text (sort l))).
  split; [unfold partsOf; now rewrite Hl|].
  assert (Hall' : Forall (fun c => In (c_rule c) rules /\ matchedAt text c)
                         (sort l)).
  { rewrite Forall_forall in *. intros c Hc. apply Hall.
    now rewrite sort_perm. }
  destruct (@select_tidy text (sort l) initState Hall')
    as (Hfrom & Hadj & Hlast); try reflexivity; [constructor|].
  fold (select text (sort l)) in Hfrom, Hadj, Hlast.
  unfold finish. split.
  - apply Forall_app. split; [exact Hfrom|].
    destruct (Nat.ltb_spec (lastIndex (select text (sort l))) (length text));
      repeat constructor.
    simpl. apply substring_nonempty; lia.
  - rewrite adjacent_app, Hadj, Hlast.
    destruct (_ <? _); reflexivity.
Qed.

Lemma mapM_inv {A B} (f : A -> option B) :
  forall l bs, mapM f l = Some bs -> Forall2 (fun a b => f a = Some b) l bs.
Proof.
  induction l as [|a l IH]; intros bs H; simpl in H.
  - injection H as <-. constructor.
  - destruct (f a) as [b|] eqn:Ea; [|discriminate]. simpl in H.
    destruct (mapM f l) as [bs'|] eqn:El; [|discriminate]. simpl in H.
    injection H as <-. constructor; [exact Ea|now apply IH].
Qed.

(** The node that [parts.forEach] appends for a part. *)
Lemma applyRules_inv (fuel : nat) (text : JsString) (nodes : list Node) :
  applyRules fuel text = Some nodes ->
  exists fuel' ps,
    fuel = S fuel' /\ partsOf text = Some ps /\
    Forall2 (fun p n =>
               match p with
               | PString s => n = TextNode s
               | PMatch content rule =>
                   exists children,
                     applyRules fuel' content = Some children /\
                     n = Element (tagOf rule) (cssOf rule) children
               end) ps nodes.
Proof.
  destruct fuel as [|fuel']; [discriminate|]. simpl. intros H.
  destruct (partsOf text) as [ps|] eqn:E; [|discriminate]. simpl in H.
  exists fuel', ps. split; [reflexivity|]. split; [reflexivity|].
  apply mapM_inv in H. clear E.
  induction H as [|p n ps ns Hpn _ IH]; constructor; trivial.
  destruct p as [s|content rule].
  - now injection Hpn as <-.
  - destruct (applyRules fuel' content) as [children|]; [|discriminate].
    simpl in Hpn. injection Hpn as <-. now exists children.
Qed.

(** * Shape of the output tree *)

Lemma adjacent_Forall2 {A B} (f : A -> bool) (g : B -> bool) l l' :
  Forall2 (fun a b => f a = g b) l l' -> adjacent f l = adjacent g l'.
Proof.
  induction 1 as [|a b l l' Hab Hl IH]; simpl; [reflexivity|].
  rewrite Hab, IH. destruct Hl as [|a' b' ? ? Hab' _]; [reflexivity|].
  now rewrite Hab'.
Qed.

Lemma applyRules_normalized :
  forall fuel text nodes,
    applyRules fuel text = Some nodes ->
    adjacent isText nodes = false /\ forallb normalized nodes = true.
Proof.
  induction fuel as [|fuel IH]; intros text nodes H; [discriminate|].
  apply applyRules_inv in H as (fuel' & ps & [= <-] & Hps & Hnodes).
  destruct (partsOf_tidy text) as (ps' & Hps' & Hfrom & Hadj).
  assert (ps' = ps) by congruence. subst ps'. split.
  - rewrite <- Hadj. symmetry. apply adjacent_Forall2.
    eapply Forall2_impl; [|exact Hnodes]. cbv beta.
    intros [s|content rule] n Hn.
    + now subst n.
    + destruct Hn as (children & _ & ->). reflexivity.
  - clear Hps Hps' Hadj.
    induction Hnodes as [|p n ps ns Hpn _ IHn]; [reflexivity|].
    inversion Hfrom as [|? ? Hp Hfrom']; subst. simpl.
    rewrite (IHn Hfrom'), andb_true_r.
    destruct p as [s|content rule].
    + subst n. simpl in *. destruct s; [congruence|reflexivity].
    + destruct Hpn as (children & Hch & ->). simpl.
      destruct (IH _ _ Hch) as [-> ->]. reflexivity.
Qed.

(** X8: the output needs no normalisation.  At every depth no text node
    is empty and no two text nodes are neighbours. *)
Theorem output_normalized (text : JsString) :
  exists nodes,
    resolve text = Some nodes /\
    adjacent isText nodes = false /\
    forallb normalized nodes = true.
Proof.
  destruct (@applyRules_spec (S (length text)) text) as (nodes & Hn & _);
    [lia|].
  exists nodes. split; [exact Hn|]. eapply applyRules_normalized, Hn.
Qed.

Lemma occursIn_inside (d inner text pre post : JsString) l r :
  text = pre ++ (l ++ inner ++ r) ++ post ->
  occursIn d inner -> occursIn d text.
Proof.
  intros -> (a & b & ->).
  exists (pre ++ l ++ a), (b ++ r ++ post). now rewrite <- !app_assoc.
Qed.

Lemma occursIn_delimiter (text pre post d content : JsString) :
  text = pre ++ (d ++ content ++ d) ++ post -> occursIn d text.
Proof.
  intros ->. exists pre, (content ++ d ++ post). now rewrite <- !app_assoc.
Qed.

Lemma rules_distinct (a b : Rule) :
  In a rules -> In b rules ->
  tagOf a = tagOf b -> cssOf a = cssOf b -> a = b.
Proof.
  simpl.
  intros [<-|[<-|[<-|[<-|[<-|[<-|[]]]]]]] [<-|[<-|[<-|[<-|[<-|[<-|[]]]]]]];
    intros Ht Hc; try reflexivity; try discriminate Ht; discriminate Hc.
Qed.

Lemma existsb_false {A} (f : A -> bool) l :
  Forall (fun x => f x = false) l -> existsb f l = false.
Proof.
  induction 1 as [|x l Hx _ IH]; simpl; [reflexivity|]. now rewrite Hx, IH.
Qed.

Lemma Forall2_Forall_r {A B} (R : A -> B -> Prop) (P : A -> Prop)
    (Q : B -> Prop) l l' :
  (forall a b, P a -> R a b -> Q b) ->
  Forall P l -> Forall2 R l l' -> Forall Q l'.
Proof.
  intros H HP HR. induction HR as [|a b l l' Hab _ IH]; constructor.
  - inversion HP; subst. eauto.
  - apply IH. now inversion HP.
Qed.

(** A text in which the delimiter of a rule does not occur yields no
    element of that rule, at any depth. *)
Lemma applyRules_free (r : Rule) :
  In r rules ->
  forall fuel text nodes,
    ~ occursIn (delimiter (regex r)) text ->
    applyRules fuel text = Some nodes ->
    Forall (fun n => hasElement (tagOf r) (cssOf r) n = false) nodes.
Proof.
  intros Hr. induction fuel as [|fuel IH]; intros text nodes Hfree H;
    [discriminate|].
  apply applyRules_inv in H as (fuel' & ps & [= <-] & Hps & Hnodes).
  destruct (partsOf_tidy text) as (ps' & Hps' & Hfrom & _).
  assert (ps' = ps) by congruence. subst ps'.
  eapply Forall2_Forall_r; [|exact Hfrom|exact Hnodes]. cbv beta.
  intros [s|content rule] n Hp Hn.
  - now subst n.
  - destruct Hn as (children & Hch & ->).
    destruct Hp as (Hrule & (pre & post & Ht) & _). simpl.
    assert (Hin : ~ occursIn (delimiter (regex r)) content).
    { intros H. apply Hfree. eapply occursIn_inside; eauto. }
    rewrite existsb_false by (eapply IH; eauto).
    rewrite orb_false_r.
    destruct (String.eqb_spec (tagOf rule) (tagOf r)) as [Et|]; [|reflexivity].
    destruct (String.eqb_spec (cssOf rule) (cssOf r)) as [Ec|]; [|reflexivity].
    exfalso. apply Hfree.
    rewrite <- (rules_distinct Hrule Hr Et Ec).
    eapply occursIn_delimiter, Ht.
Qed.

Lemma applyRules_selfNested :
  forall fuel text nodes,
    applyRules fuel text = Some nodes ->
    Forall (fun n => selfNested n = false) nodes.
Proof.
  induction fuel as [|fuel IH]; intros text nodes H; [discriminate|].
  apply applyRules_inv in H as (fuel' & ps & [= <-] & Hps & Hnodes).
  destruct (partsOf_tidy text) as (ps' & Hps' & Hfrom & _).
  assert (ps' = ps) by congruence. subst ps'.
  eapply Forall2_Forall_r; [|exact Hfrom|exact Hnodes]. cbv beta.
  intros [s|content rule] n Hp Hn.
  - now subst n.
  - destruct Hn as (children & Hch & ->).
    destruct Hp as (Hrule & _ & Hfree). simpl.
    rewrite existsb_false by (eapply applyRules_free; eauto).
    rewrite existsb_false by (eapply IH; eauto). reflexivity.
Qed.

(** X9: a marker never nests inside itself.  No element of the output has
    a descendant, at any depth, with the same tag name and style. *)
Theorem no_self_nesting (text : JsString) :
  exists nodes,
    resolve text = Some nodes /\
    existsb selfNested nodes = false.
Proof.
  destruct (@applyRules_spec (S (length text)) text) as (nodes & Hn & _);
    [lia|].
  exists nodes. split; [exact Hn|].
  apply existsb_false. eapply applyRules_selfNested, Hn.
Qed.

Lemma list_max_depth (k bound : nat) (ns : list Node) :
  k <= bound ->
  Forall (fun n => depth n + k <= bound) ns ->
  list_max (map depth ns) + k <= bound.
Proof.
  intros Hk. induction 1 as [|n ns Hn _ IH]; simpl; lia.
Qed.

(** Nesting below a text that is free of the delimiters of [D]. *)
Lemma applyRules_depth :
  forall fuel text D nodes,
    NoDup D -> incl D rules ->
    (forall r, In r D -> ~ occursIn (delimiter (regex r)) text) ->
    applyRules fuel text = Some nodes ->
    Forall (fun n => depth n + length D <= length rules) nodes.
Proof.
  induction fuel as [|fuel IH]; intros text D nodes Hnd Hincl Hfree H;
    [discriminate|].
  apply applyRules_inv in H as (fuel' & ps & [= <-] & Hps & Hnodes).
  destruct (partsOf_tidy text) as (ps' & Hps' & Hfrom & _).
  assert (ps' = ps) by congruence. subst ps'.
  pose proof (NoDup_incl_length Hnd Hincl) as HD.
  eapply Forall2_Forall_r; [|exact Hfrom|exact Hnodes]. cbv beta.
  intros [s|content rule] n Hp Hn.
  - subst n. simpl. exact HD.
  - destruct Hn as (children & Hch & ->).
    destruct Hp as (Hrule & (pre & post & Ht) & Hown).
    assert (Hnew : ~ In rule D).
    { intros Hin. apply (Hfree _ Hin). eapply occursIn_delimiter, Ht. }
    assert (Hnd' : NoDup (rule :: D)) by now constructor.
    assert (Hincl' : incl (rule :: D) rules).
    { intros x [<-|Hx]; [exact Hrule|now apply Hincl]. }
    pose proof (NoDup_incl_length Hnd' Hincl') as HD'.
    assert (Hall : Forall (fun n => depth n + length (rule :: D)
                                    <= length rules) children).
    { eapply IH; [exact Hnd'|exact Hincl'| |exact Hch].
      intros x [<-|Hx] Hocc; [now apply Hown|].
      apply (Hfree _ Hx). eapply occursIn_inside; eauto. }
    pose proof (@list_max_depth _ _ children HD' Hall) as Hmax.
    simpl in *. lia.
Qed.

(** X10: containers nest at most six deep, whatever the length of the
    text: along a path of the output every rule of the table is used at
    most once. *)
Theorem nesting_depth_bounded (text : JsString) :
  exists nodes,
    resolve text = Some nodes /\
    list_max (map depth nodes) <= 6.
Proof.
  destruct (@applyRules_spec (S (length text)) text) as (nodes & Hn & _);
    [lia|].
  exists nodes. split; [exact Hn|].
  assert (Hall : Forall (fun n => depth n + 0 <= 6) nodes).
  { eapply (@applyRules_depth _ text []); [constructor| |easy|exact Hn].
    intros x []. }
  pose proof (@list_max_depth 0 6 nodes (Nat.le_0_l _) Hall). lia.
Qed.

(** The bound of six is reached. *)
Example nesting_depth_six :
  option_map (fun nodes => list_max (map depth nodes))
             (resolve (js "~~__**++--*x*--++**__~~")) = Some 6.
Proof. vm_compute. reflexivity. Qed.

(** * Lines of a block *)

Lemma split_length (sep : CodeUnit) (s : JsString) :
  length (split sep s) = S (length (filter (N.eqb sep) s)).
Proof.
  induction s as [|c s IH]; simpl; [reflexivity|].
  rewrite (N.eqb_sym sep c). destruct (N.eqb c sep); simpl.
  - now rewrite IH.
  - destruct (split sep s); simpl in *; [discriminate IH|exact IH].
Qed.

Lemma join_split (sep : CodeUnit) (s : JsString) :
  join sep (split sep s) = s.
Proof.
  induction s as [|c s IH]; simpl; [reflexivity|].
  destruct (N.eqb_spec c sep) as [->|Hne].
  - pose proof (split_length sep s) as Hl.
    destruct (split sep s) as [|l ls]; [discriminate Hl|].
    simpl in *. now rewrite IH.
  - pose proof (split_length sep s) as Hl.
    destruct (split sep s) as [|l ls]; [discriminate Hl|].
    destruct ls; simpl in *; now rewrite <- IH.
Qed.

Lemma split_lines (sep : CodeUnit) (s : JsString) :
  Forall (fun l => ~ In sep l) (split sep s).
Proof.
  induction s as [|c s IH]; simpl; [repeat constructor; auto|].
  destruct (N.eqb_spec c sep) as [->|Hne].
  - constructor; [auto|exact IH].
  - destruct (split sep s) as [|l ls]; [repeat constructor; simpl; tauto|].
    inversion IH; subst. constructor; [|assumption].
    simpl. intros [?|?]; [congruence|contradiction].
Qed.

Lemma join_map_unparse (lines : list JsString) (paragraphs : list Node) :
  Forall2 (fun line p =>
             exists children,
               resolve line = Some children /\
               concat (map unparse children) = line /\
               p = Element "p" "" children) lines paragraphs ->
  join LF (map unparse paragraphs) = join LF lines.
Proof.
  induction 1 as [|line p lines ps (children & _ & Hu & ->) Hrest IH];
    [reflexivity|].
  assert (E : unparse (Element "p" "" children) = line).
  { simpl. change (markerFor "p" "") with (@nil CodeUnit).
    simpl. now rewrite app_nil_r. }
  change (map unparse (Element "p" "" children :: ps))
    with (unparse (Element "p" "" children) :: map unparse ps).
  rewrite E. destruct Hrest; [reflexivity|].
  simpl in *. now rewrite IH.
Qed.

(** X11: a block is rendered line by line.  There is one paragraph for
    every line of the source, empty lines included, that is one more than
    the source has line feeds; each paragraph holds the rendering of its
    line; and the paragraphs' source texts joined by line feeds give the
    source of the block again. *)
Theorem block_round_trip (source : JsString) :
  exists paragraphs,
    renderBlock source = Some paragraphs /\
    length paragraphs = S (length (filter (N.eqb LF) source)) /\
    Forall2 (fun line p =>
               ~ In LF line /\
               exists children,
                 resolve line = Some children /\
                 p = Element "p" "" children)
            (split LF source) paragraphs /\
    join LF (map unparse paragraphs) = source.
Proof.
  unfold renderBlock.
  destruct (@mapM_Forall2 _ _
              (fun line => children <- resolve line ;;
                           Some (Element "p" "" children))
              (fun line p =>
                 exists children,
                   resolve line = Some children /\
                   concat (map unparse children) = line /\
                   p = Element "p" "" children)
              (split LF source)) as (ps & Hps & Hall).
  - apply Forall_forall. intros line _.
    destruct (@applyRules_spec (S (length line)) line) as (ch & Hch & Hu);
      [lia|].
    unfold resolve. rewrite Hch. simpl. eexists. split; [reflexivity|].
    now exists ch.
  - exists ps. split; [exact Hps|]. split; [|split].
    + rewrite <- (Forall2_length Hall). apply split_length.
    + pose proof (split_lines LF source) as Hlines.
      clear Hps. induction Hall as [|line p ls ps' (ch & Hch & _ & ->) _ IH];
        [constructor|].
      inversion Hlines; subst. constructor; [|now apply IH].
      split; [assumption|now exists ch].
    + rewrite (join_map_unparse Hall). apply join_split.
Qed.

(** * Font names *)

Lemma lastIndexFrom_spec (c : CodeUnit) :
  forall s i found,
    (~ In c s /\ lastIndexFrom c s i found = found) \/
    (exists pre post,
        s = pre ++ c :: post /\ ~ In c post /\
        lastIndexFrom c s i found = Z.of_nat (i + length pre)).
Proof.
  induction s as [|x s IH]; intros i found; simpl; [left; auto|].
  destruct (IH (S i) (if N.eqb x c then Z.of_nat i else found))
    as [[Hnot E]|(pre & post & -> & Hnot & E)].
  - rewrite E. destruct (N.eqb_spec x c) as [->|Hne].
    + right. exists [], s. simpl. rewrite Nat.add_0_r. auto.
    + left. split; [|reflexivity]. intros [?|?]; [congruence|contradiction].
  - right. exists (x :: pre), post. rewrite E. simpl.
    repeat split; trivial. f_equal. lia.
Qed.

Lemma lastIndexOf_spec (c : CodeUnit) (s : JsString) :
  (~ In c s /\ lastIndexOf c s = (-1)%Z) \/
  (exists pre post,
      s = pre ++ c :: post /\ ~ In c post /\
      lastIndexOf c s = Z.of_nat (length pre)).
Proof. apply (lastIndexFrom_spec c s 0 (-1)). Qed.

Lemma substring_prefix (pre post : JsString) :
  substring (pre ++ post) 0 (length pre) = pre.
Proof.
  unfold substring. rewrite length_app.
  rewrite Nat.min_0_l, Nat.min_0_l, (Nat.min_l (length pre)) by lia.
  rewrite Nat.max_0_l, Nat.sub_0_r. simpl.
  rewrite firstn_app, Nat.sub_diag, firstn_all. simpl. apply app_nil_r.
Qed.

Lemma substring_suffix (pre post : JsString) :
  substring (pre ++ post) (length pre) (length (pre ++ post)) = post.
Proof.
  unfold substring. rewrite length_app.
  rewrite (Nat.min_l (length pre)), Nat.min_id, Nat.min_l, Nat.max_r by lia.
  rewrite skipn_app, skipn_all, Nat.sub_diag. simpl.
  apply firstn_all2. lia.
Qed.

Lemma split_absent (sep : CodeUnit) (s : JsString) :
  ~ In sep s -> split sep s = [s].
Proof.
  induction s as [|c s IH]; intros H; simpl; [reflexivity|].
  destruct (N.eqb_spec c sep) as [->|_]; [exfalso; apply H; now left|].
  rewrite IH; [reflexivity|]. intros Hin. apply H. now right.
Qed.

Lemma last_split (sep : CodeUnit) (pre post : JsString) :
  ~ In sep post -> last (split sep (pre ++ sep :: post)) [] = post.
Proof.
  intros Hpost. induction pre as [|x pre IH]; simpl.
  - rewrite N.eqb_refl, split_absent by exact Hpost. reflexivity.
  - pose proof (split_length sep (pre ++ sep :: post)) as Hl.
    rewrite filter_app in Hl. simpl in Hl. rewrite N.eqb_refl in Hl.
    rewrite length_app in Hl. simpl in Hl.
    destruct (split sep (pre ++ sep :: post)) as [|l [|l' ls]];
      simpl in Hl; try lia.
    destruct (N.eqb x sep); exact IH.
Qed.



(** X13: the two ways in which the loader cuts the file name agree.  The
    name before the last dot, the dot when the file name has one, and the
    extension taken by [split(".").pop()] make up the file name; the
    extension holds no dot; a file name without a dot is its own extension
    and has an empty name. *)
Theorem font_file_name_parts (fontFileName : JsString) :
  rawFontName fontFileName
  ++ (if existsb (N.eqb DOT) fontFileName then [DOT] else [])
  ++ extensionOf fontFileName
  = fontFileName /\
  ~ In DOT (extensionOf fontFileName) /\
  (existsb (N.eqb DOT) fontFileName = false ->
   rawFontName fontFileName = [] /\ extensionOf fontFileName = fontFileName).
Proof.
  unfold rawFontName, extensionOf, substringZ.
  destruct (lastIndexOf_spec DOT fontFileName)
    as [[Hnot ->]|(pre & post & -> & Hnot & ->)].
  - assert (E : existsb (N.eqb DOT) fontFileName = false).
    { destruct (existsb (N.eqb DOT) fontFileName) eqn:E; [|reflexivity].
      apply existsb_exists in E as (x & Hx & Hd).
      apply N.eqb_eq in Hd. now subst x. }
    rewrite E, split_absent by exact Hnot. simpl.
    change (substring fontFileName 0 0) with (@nil CodeUnit).
    simpl. auto.
  - assert (E : existsb (N.eqb DOT) (pre ++ DOT :: post) = true).
    { apply existsb_exists. exists DOT. split; [|apply N.eqb_refl].
      apply in_or_app. right. now left. }
    rewrite E, last_split by exact Hnot.
    rewrite Nat2Z.id. simpl Z.to_nat. rewrite substring_prefix.
    repeat split; trivial; discriminate.
Qed.

(** X14: the file name that [scanFontFiles] takes from a path is the part
    after the last slash.  The path is a directory part followed by the
    file name, the directory part is empty or ends with a slash, and the
    file name holds no slash. *)
Theorem scanned_file_name (filePath : JsString) :
  exists dir,
    filePath = dir ++ fileNameOf filePath /\
    (dir = [] \/ exists d, dir = d ++ [SLASH]) /\
    ~ In SLASH (fileNameOf filePath).
Proof.
  unfold fileNameOf, substringZ.
  destruct (lastIndexOf_spec SLASH filePath)
    as [[Hnot ->]|(pre & post & -> & Hnot & ->)].
  - exists []. simpl Z.to_nat. rewrite Nat2Z.id.
    rewrite substring_all. auto.
  - exists (pre ++ [SLASH]).
    replace (Z.to_nat (Z.of_nat (length pre) + 1))
      with (length (pre ++ [SLASH])) by (rewrite length_app; simpl; lia).
    rewrite Nat2Z.id.
    replace (pre ++ SLASH :: post) with ((pre ++ [SLASH]) ++ post)
      by now rewrite <- app_assoc.
    rewrite substring_suffix. repeat split; trivial.
    right. now exists pre.
Qed.

(** * The output follows the parts *)

Lemma Forall2_refine {A B} (P : A -> Prop) (R R' : A -> B -> Prop) l l' :
  (forall a b, P a -> R a b -> R' a b) ->
  Forall P l -> Forall2 R l l' -> Forall2 R' l l'.
Proof.
  intros H HP HR. induction HR as [|a b l l' Hab _ IH]; constructor.
  - inversion HP; subst. auto.
  - apply IH. now inversion HP.
Qed.

Lemma resolve_emitted (text : JsString) :
  exists allMatches nodes,
    discover rules text = Some allMatches /\
    resolve text = Some nodes /\
    Forall2 emitted (finish text (select text (sort allMatches))) nodes /\
    concat (map unparse nodes) = text.
Proof.
  destruct (partsOf_spec text) as (l & Hl & Hparts & _ & _ & Hfits).
  destruct (@applyRules_spec (S (length text)) text) as (nodes & Hn & Hu);
    [lia|].
  exists l, nodes. split; [exact Hl|]. split; [exact Hn|].
  split; [|exact Hu].
  apply applyRules_inv in Hn as (fuel' & ps & [= <-] & Hps & Hnodes).
  assert (ps = finish text (select text (sort l))) by congruence. subst ps.
  eapply Forall2_refine; [|exact Hfits|exact Hnodes]. cbv beta.
  intros [s|content rule] n Hfit Hn; [exact Hn|].
  destruct Hn as (children & Hch & ->). exists children.
  split; [|reflexivity].
  pose proof (partFits_shorter Hfit) as Hshort.
  unfold resolve. rewrite <- Hch. apply applyRules_fuel; lia.
Qed.

Lemma substring_middle (pre mid post : JsString) :
  substring (pre ++ mid ++ post) (length pre) (length pre + length mid) = mid.
Proof.
  unfold substring. rewrite !length_app.
  rewrite (Nat.min_l (length pre)), (Nat.min_l (length pre + length mid))
    by lia.
  rewrite Nat.min_l, Nat.max_r by lia.
  rewrite skipn_app, skipn_all, Nat.sub_diag. simpl.
  replace (length pre + length mid - length pre) with (length mid + 0) by lia.
  rewrite firstn_app_2. simpl. apply app_nil_r.
Qed.

Lemma layout_spans (text : JsString) :
  forall ps pre post,
    text = pre ++ concat (map spanOf ps) ++ post ->
    Forall (fun rp =>
              spanOf (snd rp) = substring text (start (fst rp)) (end_ (fst rp)))
           (layout (length pre) ps).
Proof.
  induction ps as [|p ps IH]; intros pre post Ht; simpl; [constructor|].
  constructor.
  - simpl. rewrite Ht. simpl. rewrite <- app_assoc.
    now rewrite substring_middle.
  - replace (length pre + length (spanOf p))
      with (length (pre ++ spanOf p)) by apply length_app.
    apply (IH _ post). rewrite Ht. simpl. now rewrite <- !app_assoc.
Qed.

Lemma literalRanges_gaps :
  forall ps o,
    Forall (fun p => match p with PString s => s <> [] | PMatch _ _ => True end)
           ps ->
    adjacent isLiteral ps = false ->
    literalRanges o ps
    = gaps o (matchRanges o ps) (o + length (concat (map spanOf ps))).
Proof.
  induction ps as [|p ps IH]; intros o Hne Hadj.
  - simpl. rewrite Nat.add_0_r, Nat.ltb_irrefl. reflexivity.
  - inversion Hne as [|? ? Hp Hne']; subst.
    change (adjacent isLiteral (p :: ps))
      with ((isLiteral p && headIs isLiteral ps)
            || adjacent isLiteral ps)%bool in Hadj.
    apply orb_false_iff in Hadj as [Hhead Hadj'].
    specialize (IH (o + length (spanOf p)) Hne' Hadj').
    simpl. rewrite length_app, Nat.add_assoc.
    destruct p as [s|content rule].
    + rewrite IH. simpl in Hhead.
      assert (Hs : 0 < length s) by (destruct s; [congruence|simpl; lia]).
      destruct ps as [|[s'|content' rule'] ps']; [|discriminate Hhead|].
      * simpl. rewrite Nat.add_0_r, Nat.ltb_irrefl.
        rewrite (proj2 (Nat.ltb_lt o (o + length s))) by lia. reflexivity.
      * simpl. rewrite Nat.ltb_irrefl.
        rewrite (proj2 (Nat.ltb_lt o (o + length s))) by lia. reflexivity.
    + rewrite IH. simpl. rewrite Nat.ltb_irrefl. reflexivity.
Qed.

Lemma partFrom_nonEmpty text ps :
  Forall (partFrom text) ps ->
  Forall (fun p => match p with PString s => s <> [] | PMatch _ _ => True end)
         ps.
Proof.
  intros H. eapply Forall_impl; [|exact H]. intros [s|content rule]; simpl;
    auto.
Qed.

(** The layout of the parts of any text. *)
Lemma parts_layout (text : JsString) (allMatches : list Candidate) :
  discover rules text = Some allMatches ->
  let st := select text (sort allMatches) in
  let ps := finish text st in
  partsOf text = Some ps /\
  concat (map spanOf ps) = text /\
  matchRanges 0 ps = processedRanges st /\
  literalRanges 0 ps = gaps 0 (processedRanges st) (length text) /\
  Forall (fun rp =>
            spanOf (snd rp) = substring text (start (fst rp)) (end_ (fst rp)))
         (layout 0 ps).
Proof.
  intros Hl. cbv zeta.
  destruct (partsOf_spec text) as (l & Hl' & Hparts & Hcov & Hconcat & _).
  assert (l = allMatches) by congruence. subst l.
  destruct (partsOf_tidy text) as (ps & Hps & Hfrom & Hadj).
  assert (ps = finish text (select text (sort allMatches))) by congruence.
  subst ps.
  assert (Hm : matchRanges 0 (finish text (select text (sort allMatches)))
               = processedRanges (select text (sort allMatches))).
  { rewrite matchRanges_finish. apply Hcov. }
  split; [exact Hparts|]. split; [exact Hconcat|]. split; [exact Hm|]. split.
  - rewrite (literalRanges_gaps 0 (partFrom_nonEmpty Hfrom) Hadj).
    now rewrite Hm, Hconcat.
  - apply (@layout_spans text _ [] []). simpl.
    now rewrite app_nil_r, Hconcat.
Qed.

(** * Round trip *)

(** C1: for every text, [resolve] returns the nodes of the parts that
    selection lays out: a text node for every literal part, and for every
    accepted match the element of its rule around the rendering of its
    payload, so the delimiters of an accepted match reach no leaf.  The
    parts tile the scanned text: each span is the text at its range, the
    spans concatenate to the text, and the match spans lie exactly on the
    accepted ranges.  Putting the delimiter of every container back around
    its content gives the text again, and the leaf characters are fewer
    than the characters of the text by the delimiter characters exactly. *)
Theorem literal_round_trip (text : JsString) :
  exists allMatches nodes,
    discover rules text = Some allMatches /\
    let st := select text (sort allMatches) in
    let ps := finish text st in
    partsOf text = Some ps /\
    resolve text = Some nodes /\
    Forall2 emitted ps nodes /\
    concat (map spanOf ps) = text /\
    matchRanges 0 ps = processedRanges st /\
    Forall (fun rp =>
              spanOf (snd rp) = substring text (start (fst rp)) (end_ (fst rp)))
           (layout 0 ps) /\
    concat (map unparse nodes) = text /\
    length (concat (map textContent nodes))
    + list_sum (map markerChars nodes) = length text.
Proof.
  destruct (resolve_emitted text) as (l & nodes & Hl & Hn & Hem & Hu).
  destruct (parts_layout text Hl) as (Hparts & Hconcat & Hm & _ & Hlay).
  exists l, nodes. cbv zeta. repeat split; trivial.
  now rewrite <- unparse_lengths, Hu.
Qed.

(** * Totality *)

(** C8, as stated, fails at ["**oops"]: the strong marker is unterminated,
    its pattern has no match, and yet its characters do not reach the
    literal text of the output. *)
Lemma unterminated_marker_lost :
  matchesOf (js "**oops") strongRule = Some [] /\
  option_map (fun nodes => concat (map textContent nodes))
             (resolve (js "**oops")) = Some (js "oops") /\
  existsb (N.eqb 42) (js "oops") = false.
Proof. repeat split; vm_compute; reflexivity. Qed.

(** C8, amended: for every text, neither the discovery loops nor the
    recursion fail, and [resolve] returns the nodes of the parts.  The
    literal parts are exactly the stretches of the text that the accepted
    ranges leave out, each with the characters of the text at its place
    unchanged, so a marker stays literal text whenever no accepted match
    covers it; and no character of the text is lost, since the nodes with
    their delimiters put back read the text again. *)
Theorem resolve_total (text : JsString) :
  exists allMatches nodes,
    discover rules text = Some allMatches /\
    let st := select text (sort allMatches) in
    let ps := finish text st in
    resolve text = Some nodes /\
    Forall2 emitted ps nodes /\
    literalRanges 0 ps = gaps 0 (processedRanges st) (length text) /\
    Forall (fun rp =>
              spanOf (snd rp) = substring text (start (fst rp)) (end_ (fst rp)))
           (layout 0 ps) /\
    concat (map unparse nodes) = text.
Proof.
  destruct (resolve_emitted text) as (l & nodes & Hl & Hn & Hem & Hu).
  destruct (parts_layout text Hl) as (_ & _ & _ & Hgaps & Hlay).
  exists l, nodes. cbv zeta. repeat split; trivial.
Qed.
